(** * script.js: storage adapter, cart, customer profile and form validation

    A shallow embedding of [src/script.js].  The definitions follow the source
    from top to bottom: the storage adapter (lines 1-54), the storage helpers
    (100-116), the newsletter form (118-147), the cart buttons (149-253) and
    the feedback form (255-329).  The theorems come after the definitions.
    The styling and the timer of the alert box and the listener of the
    [storage] event (lines 49-53, 68-97) are left out: for [showCustomAlert]
    the embedding keeps the message that is shown.

    Conventions.
    - A JS string is a [string]; each character stands for one code unit
      below 256.  The strings held in the stores are kept apart as [text],
      see [Runtime].
    - A JS number that holds a price is a binary64 [float]: [PrimFloat] has
      the arithmetic of the engine.  A number that counts items is a double
      whose value is a non-negative integer, given by this value, an [N];
      [+ 1] and the sums round as the doubles do ([round53], [Number_add]),
      and a sum can be [+Infinity].
    - A function that reads or writes the page is a computation [M S A] over
      the state [S] it touches; it completes normally or throws. *)

From Stdlib Require Import ZArith NArith List String Ascii Lia.
From Stdlib Require Import Floats.
From stdpp Require Import gmap strings pretty.

Open Scope string_scope.

(** ** Completions and stateful computations *)

Inductive exn : Set :=
| QuotaExceededError
| SecurityError
| TypeError
| SyntaxError.

Inductive completion (A : Type) : Type :=
| Normal (a : A)
| Throw (e : exn).
Arguments Normal {A} a.
Arguments Throw {A} e.

Definition M (S A : Type) : Type := S → completion A * S.

Definition ret {S A} (a : A) : M S A := fun s => (Normal a, s).

Definition bind {S A B} (m : M S A) (k : A → M S B) : M S B :=
  fun s => match m s with
           | (Normal a, s') => k a s'
           | (Throw e, s') => (Throw e, s')
           end.

Definition lift {S A} (c : completion A) : M S A := fun s => (c, s).

Definition try_catch {S A} (m : M S A) (handler : exn → M S A) : M S A :=
  fun s => match m s with
           | (Normal a, s') => (Normal a, s')
           | (Throw e, s') => handler e s'
           end.

Notation "'let!' x ':=' m 'in' k" := (bind m (fun x => k))
  (at level 10, x name, m at level 100, k at level 200,
   format "'[v' 'let!'  x  ':='  m  'in' '/' k ']'").
Notation "'run!' m 'in' k" := (bind m (fun _ => k))
  (at level 10, m at level 100, k at level 200,
   format "'[v' 'run!'  m  'in' '/' k ']'").

Definition completes {A} (c : completion A) : bool :=
  match c with Normal _ => true | Throw _ => false end.

(** ** Strings *)

(* the line feed and the double quote of the messages *)
Definition nl : string := String "010" EmptyString.
Definition dq : string := String "034" EmptyString.

Definition is_empty (s : string) : bool :=
  match s with EmptyString => true | String _ _ => false end.

(* [s.includes('@')] *)
Fixpoint includes_at (s : string) : bool :=
  match s with
  | EmptyString => false
  | String c s' => if Ascii.eqb c "@" then true else includes_at s'
  end.

(* [s.split('@')] *)
Fixpoint split_at (s : string) : list string :=
  match s with
  | EmptyString => [EmptyString]
  | String c s' =>
      if Ascii.eqb c "@" then EmptyString :: split_at s'
      else match split_at s' with
           | [] => [String c EmptyString]
           | part :: parts => String c part :: parts
           end
  end.

(** White space and line terminators, among the code units below 256: TAB,
    LF, VT, FF, CR, SP and NBSP. *)
Definition is_space (c : ascii) : bool :=
  let n := N_of_ascii c in
  ((9 <=? n) && (n <=? 13) || (n =? 32) || (n =? 160))%N.

Fixpoint trimStart (s : string) : string :=
  match s with
  | EmptyString => EmptyString
  | String c s' => if is_space c then trimStart s' else s
  end.

Fixpoint trimEnd (s : string) : string :=
  match s with
  | EmptyString => EmptyString
  | String c s' =>
      match trimEnd s' with
      | EmptyString => if is_space c then EmptyString else String c EmptyString
      | t => String c t
      end
  end.

(* [s.trim()] *)
Definition trim (s : string) : string := trimEnd (trimStart s).

(* [parts.join(sep)] *)
Fixpoint join (sep : string) (parts : list string) : string :=
  match parts with
  | [] => EmptyString
  | [part] => part
  | part :: parts' => part ++ sep ++ join sep parts'
  end.

(** ** Numbers *)

Open Scope Z_scope.

(* a count as a number *)
Definition Number_of_count (n : N) : float :=
  SF2Prim (binary_normalize 53 1024 (Z.of_N n) 0 false).

(** A Number that counts items: a double whose value is a non-negative
    integer, given by its value, or [+Infinity]. *)
Inductive count : Set :=
| Finite (n : N)
| Infinity.

(** The double nearest to the integer [n], the one with the even significand
    when two are as near; the exponent is not bounded here.  Every integer
    below [2^53] is a double.  From there [n = m * 2^e + r] with
    [2^52 <= m < 2^53] and [r < 2^e] lies between the neighbouring doubles
    [m * 2^e] and [(m + 1) * 2^e]. *)
Definition round53 (n : N) : N :=
  if (n <? 2 ^ 53)%N then n
  else
    let e := (N.log2 n - 52)%N in
    let m := (n / 2 ^ e)%N in
    let r := (n mod 2 ^ e)%N in
    let half := (2 ^ (e - 1))%N in
    if (half <? r)%N || ((r =? half)%N && N.odd m) then ((m + 1) * 2 ^ e)%N
    else (m * 2 ^ e)%N.

(** [x + y] on these Numbers: the exact sum, rounded to a double; a rounded
    sum of [2^1024] or more is [+Infinity]. *)
Definition Number_add (x : count) (y : N) : count :=
  match x with
  | Finite a =>
      let s := round53 (a + y) in
      if (s <? 2 ^ 1024)%N then Finite s else Infinity
  | Infinity => Infinity
  end.

(** The decimal digits [d1 d2 ... dk] of [s] and the exponent [n - 1], as
    [Number::toString] writes a number of [n > 21] digits. *)
Definition exponential (s : Z) (q : nat) : string :=
  let ds := pretty (Z.to_N s) in
  let n := (String.length ds + q)%nat in
  match ds with
  | String d EmptyString => String d EmptyString ++ "e+" ++ pretty (n - 1)%nat
  | String d rest => String d EmptyString ++ "." ++ rest ++ "e+" ++ pretty (n - 1)%nat
  | EmptyString => EmptyString
  end.

(** [Number::toString] of the double [m * 2^e], for [1 <= e]: the shortest
    decimal [s * 10^q] that rounds to this double, the closest one when
    several are as short.  [lo] and [hi] are halfway to the neighbouring
    doubles, which round to this one when [m] is even. *)
Section Shortest.
Variables (m : positive) (e : Z).

Definition rounds_here (z : Z) : bool :=
  let v := Z.pos m * 2 ^ e in
  let hi := v + 2 ^ (e - 1) in
  let lo := v - (if Z.pos m =? 2 ^ 52 then 2 ^ (e - 2) else 2 ^ (e - 1)) in
  if Z.even (Z.pos m) then (lo <=? z) && (z <=? hi) else (lo <? z) && (z <? hi).

Fixpoint shortest (q : nat) : Z * nat :=
  let v := Z.pos m * 2 ^ e in
  let p := 10 ^ Z.of_nat q in
  let s0 := v / p in
  let s1 := s0 + 1 in
  let ok0 := (0 <? s0) && rounds_here (s0 * p) in
  let ok1 := rounds_here (s1 * p) in
  let d0 := v - s0 * p in
  let d1 := s1 * p - v in
  if ok0 && ok1 then
    (if d0 <? d1 then s0 else if d1 <? d0 then s1 else if Z.even s0 then s0 else s1, q)
  else if ok0 then (s0, q)
  else if ok1 then (s1, q)
  else match q with
       | O => (v, O)
       | S q' => shortest q'
       end.

End Shortest.

(* [q] zeros *)
Fixpoint zeros (q : nat) : string :=
  match q with
  | O => EmptyString
  | S q' => String "0" (zeros q')
  end.

(** [Number::toString] of a double whose value is the non-negative integer
    [n].  Below [2^53] every integer is a double, so no shorter decimal
    rounds to [n]: all digits of [n] are written.  From [2^53] the digits
    are those of the shortest decimal that rounds to the double
    [n = m * 2^e], [2^52 <= m < 2^53], followed by zeros below [10^21] and
    in exponent form from [10^21]. *)
Definition String_of_count (n : N) : string :=
  if (n <? 2 ^ 53)%N then pretty n
  else
    let e := Z.of_N (N.log2 n) - 52 in
    let m := Z.to_pos (Z.of_N n / 2 ^ e) in
    let (s, q) := shortest m e 400 in
    if (n <? 10 ^ 21)%N then (pretty (Z.to_N s) ++ zeros q)%string
    else exponential s q.

(* the same of a sum *)
Definition String_of_total (x : count) : string :=
  match x with
  | Finite n => String_of_count n
  | Infinity => "Infinity"
  end.

(** The integer closest to [100 * m * 2^e], the larger one of two:
    [floor (100 * m * 2^e + 1/2)]. *)
Definition hundredths (m : positive) (e : Z) : Z :=
  if 0 <=? e then 100 * Z.pos m * 2 ^ e
  else (200 * Z.pos m + 2 ^ (- e)) / 2 ^ (1 - e).

(* [n] hundredths in decimal, with a point before the last two digits *)
Definition fixed2 (n : Z) : string :=
  pretty (Z.to_N (n / 100)) ++ "."
    ++ pretty (Z.to_N (n mod 100 / 10)) ++ pretty (Z.to_N (n mod 10)).

(** [x.toFixed(2)] (ECMAScript, Number.prototype.toFixed): a double that is
    not finite, or is [10^21] or more, is written as [String(x)]; any other
    as the integer [n] closest to [100 * x] (the larger one of two), with a
    point before its last two digits. *)
Definition toFixed2 (x : float) : string :=
  match Prim2SF x with
  | S754_nan => "NaN"
  | S754_infinity s => if s then "-Infinity" else "Infinity"
  | S754_zero _ => "0.00"
  | S754_finite s m e =>
      let sign := if s then "-" else "" in
      if (0 <=? e) && (10 ^ 21 <=? Z.pos m * 2 ^ e) then
        let (d, q) := shortest m e 400 in sign ++ exponential d q
      else sign ++ fixed2 (hundredths m e)
  end.

Close Scope Z_scope.

(** What [JSON.parse(JSON.stringify(x))] is for a number [x]: [null] when
    [x] is [NaN] or infinite, [0] for both zeros, [x] otherwise. *)
Definition json_number (x : float) : option float :=
  if is_nan x || is_infinity x then None
  else if is_zero x then Some 0%float
  else Some x.

(* [ToNumber]: [null] is [+0] *)
Definition Number_of_price (p : option float) : float :=
  match p with Some x => x | None => 0%float end.

(** ** The cart and the customer record (the objects the script builds) *)

Record CartItem : Type := {
  name : string;
  price : option float;   (* [None] is [null], which [JSON] writes for [NaN] *)
  quantity : N            (* a double whose value is this integer *)
}.

(** The cart is an object used as a map from item ids to items: the list has
    its own properties in the order [Object.keys] gives them. *)
Definition Cart : Type := list (string * CartItem).

Record CustomerData : Type := {
  cd_name : string;
  cd_email : string;
  cd_phone : string;
  cd_lastMessage : string;
  cd_timestamp : string
}.

Definition keys (o : Cart) : list string := map fst o.

(* the own property [k] of [o] *)
Fixpoint own (o : Cart) (k : string) : option CartItem :=
  match o with
  | [] => None
  | (k', item) :: o' => if String.eqb k k' then Some item else own o' k
  end.

(** The properties every object inherits from [Object.prototype]: eleven
    functions and the accessor [__proto__]. *)
Definition Object_prototype : list string :=
  [ "constructor"; "__defineGetter__"; "__defineSetter__"; "hasOwnProperty";
    "__lookupGetter__"; "__lookupSetter__"; "isPrototypeOf";
    "propertyIsEnumerable"; "toString"; "valueOf"; "__proto__";
    "toLocaleString" ].

Definition inherited (k : string) : bool :=
  existsb (String.eqb k) Object_prototype.

(** [o[k]]: the own property, else the inherited one, else [undefined]. *)
Inductive property : Type :=
| Own (item : CartItem)
| Inherited
| Absent.

Definition get (o : Cart) (k : string) : property :=
  match own o k with
  | Some item => Own item
  | None => if inherited k then Inherited else Absent
  end.

(** An array index is the canonical decimal form of an integer below
    [2^32 - 1].  [Object.keys] lists the array indices first, in ascending
    order, then the other keys in the order of their creation. *)
Fixpoint decimal (s : string) (acc : N) : option N :=
  match s with
  | EmptyString => Some acc
  | String c s' =>
      let d := N_of_ascii c in
      if ((48 <=? d) && (d <=? 57))%N then decimal s' (10 * acc + (d - 48))%N
      else None
  end.

Definition array_index (k : string) : option N :=
  match decimal k 0 with
  | Some n => if String.eqb (pretty n) k && (n <? 2 ^ 32 - 1)%N then Some n else None
  | None => None
  end.

Fixpoint add_index (i : N) (k : string) (item : CartItem) (o : Cart) : Cart :=
  match o with
  | [] => [(k, item)]
  | (k', item') :: o' =>
      match array_index k' with
      | Some j => if (j <? i)%N then (k', item') :: add_index i k item o'
                  else (k, item) :: o
      | None => (k, item) :: o
      end
  end.

(* [o[k] = item] when [o] has no own property [k] *)
Definition add_property (k : string) (item : CartItem) (o : Cart) : Cart :=
  match array_index k with
  | Some i => add_index i k item o
  | None => (o ++ [(k, item)])%list
  end.

(** [item.quantity += 1]: the sum of two doubles.  A quantity is a double,
    so the rounded sum is one and is below [2^1024]. *)
Definition one_more (item : CartItem) : CartItem :=
  {| name := name item; price := price item;
     quantity := round53 (quantity item + 1) |}.

(* [o[k].quantity += 1] when [k] is an own property of [o] *)
Fixpoint increment (k : string) (o : Cart) : Cart :=
  match o with
  | [] => []
  | (k', item) :: o' =>
      if String.eqb k k' then (k', one_more item) :: o'
      else (k', item) :: increment k o'
  end.

(** The lists that are objects: no key twice, array indices first and
    ascending. *)
Definition key_before (a b : string) : bool :=
  match array_index a, array_index b with
  | Some i, Some j => (i <? j)%N
  | Some _, None => true
  | None, Some _ => false
  | None, None => negb (String.eqb a b)
  end.

Fixpoint is_object_keys (ks : list string) : bool :=
  match ks with
  | [] => true
  | k :: ks' => forallb (key_before k) ks' && is_object_keys ks'
  end.

Definition is_object (o : Cart) : bool := is_object_keys (keys o).

(** What [JSON.parse(JSON.stringify(o))] is for a cart [o]: the same keys in
    the same order, the same names and counts, the prices as [json_number]
    has them. *)
Definition json_item (item : CartItem) : CartItem :=
  {| name := name item;
     price := match price item with Some x => json_number x | None => None end;
     quantity := quantity item |}.

Definition json_cart (o : Cart) : Cart :=
  map (fun p => (fst p, json_item (snd p))) o.

(** ** The runtime

    [JSON.stringify] and [JSON.parse] are builtins of the engine, not code of
    the script.  The script hands the text [JSON.stringify] returns to a
    store and later gives it to [JSON.parse]; [text] is the type of what the
    stores hold.  The fields after the functions say what the script relies
    on: the text of an object is not the empty string, and reads back as the
    object. *)
Class Runtime : Type := {
  text : Type;
  text_of_string : string → text;
  (* ToBoolean of a string *)
  truthy : text → bool;
  JSON_stringify_cart : Cart → text;
  JSON_parse_cart : text → completion Cart;
  JSON_stringify_customer : CustomerData → text;
  JSON_parse_customer : text → completion CustomerData;
  truthy_string : ∀ s, truthy (text_of_string s) = negb (is_empty s);
  truthy_cart : ∀ o, truthy (JSON_stringify_cart o) = true;
  truthy_customer : ∀ d, truthy (JSON_stringify_customer d) = true;
  parse_stringify_cart : ∀ o,
    is_object o = true →
    JSON_parse_cart (JSON_stringify_cart o) = Normal (json_cart o);
  parse_stringify_customer : ∀ d,
    JSON_parse_customer (JSON_stringify_customer d) = Normal d
}.

(** ** The browser's storage areas

    [window.sessionStorage] and [window.localStorage] are objects of the
    host.  [H] is the state of one of them.  A method completes normally or
    throws: the probe of the script exists because it may. *)

Class StorageArea `{R : Runtime} (H : Type) : Type := {
  setItem : string → text → M H unit;
  getItem : string → M H (option text);
  removeItem : string → M H unit;
  clearItems : M H unit
}.

Inductive storage_type : Set := sessionStorage_t | localStorage_t.

#[global]
Instance storage_type_eq_dec : EqDecision storage_type.
Proof. solve_decision. Defined.

(** ** The storage adapter (lines 1-46) *)

Section StorageAdapter.
Context `{R : Runtime} {H : Type} `{!StorageArea H}.

(** What the script reads and writes: the two storage objects of [window]
    ([None] when reading the property throws or yields no object), the two
    objects of [fallback], and the messages put on the screen. *)
Record World : Type := {
  sessionStorage : option H;
  localStorage : option H;
  _session : gmap string text;
  _local : gmap string text;
  alerts : list string
}.

Definition window (type : storage_type) (w : World) : option H :=
  match type with
  | sessionStorage_t => sessionStorage w
  | localStorage_t => localStorage w
  end.

Definition set_window (type : storage_type) (h : H) (w : World) : World :=
  match type with
  | sessionStorage_t =>
      {| sessionStorage := Some h; localStorage := localStorage w;
         _session := _session w; _local := _local w; alerts := alerts w |}
  | localStorage_t =>
      {| sessionStorage := sessionStorage w; localStorage := Some h;
         _session := _session w; _local := _local w; alerts := alerts w |}
  end.

Definition set__session (o : gmap string text) (w : World) : World :=
  {| sessionStorage := sessionStorage w; localStorage := localStorage w;
     _session := o; _local := _local w; alerts := alerts w |}.

Definition set__local (o : gmap string text) (w : World) : World :=
  {| sessionStorage := sessionStorage w; localStorage := localStorage w;
     _session := _session w; _local := o; alerts := alerts w |}.

(** [window[type].method(...)]: a [TypeError] (or the [SecurityError] of the
    getter) when there is no object to call. *)
Definition on_storage {A} (type : storage_type) (m : M H A) : M World A :=
  fun w => match window type w with
           | None => (Throw TypeError, w)
           | Some h => let (r, h') := m h in (r, set_window type h' w)
           end.

Definition testKey : string := "__storage_test__".

(* lines 3-13 *)
Definition isStorageAvailable (type : storage_type) : M World bool :=
  try_catch
    (run! on_storage type (setItem testKey (text_of_string "1")) in
     run! on_storage type (removeItem testKey) in
     ret true)
    (fun _ => ret false).

(** *** The fallback (lines 16-26)

    [_session] and [_local] are plain objects; the maps hold their own
    properties.  [o[k] = String(v)] creates or overwrites the own property
    [k], except for the key [__proto__]: that assignment runs the setter of
    [Object.prototype], which ignores a string.  [v] is a string already, so
    [String(v)] is [v]. *)
Definition assign (k : string) (v : text) (o : gmap string text) : gmap string text :=
  if decide (k = "__proto__") then o else <[k := v]> o.

Definition sessionSet (k : string) (v : text) : M World unit :=
  fun w => (Normal tt, set__session (assign k v (_session w)) w).

(* [hasOwnProperty(k) ? o[k] : null] *)
Definition sessionGet (k : string) : M World (option text) :=
  fun w => (Normal (_session w !! k), w).

Definition sessionRemove (k : string) : M World unit :=
  fun w => (Normal tt, set__session (delete k (_session w)) w).

Definition sessionClear : M World unit :=
  fun w => (Normal tt, set__session ∅ w).

Definition localSet (k : string) (v : text) : M World unit :=
  fun w => (Normal tt, set__local (assign k v (_local w)) w).

Definition localGet (k : string) : M World (option text) :=
  fun w => (Normal (_local w !! k), w).

Definition localRemove (k : string) : M World unit :=
  fun w => (Normal tt, set__local (delete k (_local w)) w).

(** Lines 16-18: the object is made when the script is loaded, with [_session]
    and [_local] empty; what a fallback of an earlier load held is gone. *)
Definition new_fallback : M World unit :=
  fun w => (Normal tt, set__local ∅ (set__session ∅ w)).

(** *** The adapter (lines 28-46)

    [useSession] and [useLocal] are constants of the closure: the storage
    object when its probe succeeded, [null] otherwise.  The record keeps
    whether each is non-null; the object itself is the one in [World]. *)
Record CartStorage : Set := {
  useSession : bool;
  useLocal : bool
}.

Definition hasRealSession (cs : CartStorage) : bool := useSession cs.
Definition hasRealLocal (cs : CartStorage) : bool := useLocal cs.

(** Lines 16-46: the script is loaded.  It makes the fallback, probes the two
    scopes and installs the adapter. *)
Definition load_cartStorage : M World CartStorage :=
  run! new_fallback in
  let! s := isStorageAvailable sessionStorage_t in
  let! l := isStorageAvailable localStorage_t in
  ret {| useSession := s; useLocal := l |}.

Definition setSessionItem (cs : CartStorage) (key : string) (value : text) : M World unit :=
  if useSession cs then on_storage sessionStorage_t (setItem key value)
  else sessionSet key value.

Definition getSessionItem (cs : CartStorage) (key : string) : M World (option text) :=
  if useSession cs then on_storage sessionStorage_t (getItem key)
  else sessionGet key.

Definition removeSessionItem (cs : CartStorage) (key : string) : M World unit :=
  if useSession cs then on_storage sessionStorage_t (removeItem key)
  else sessionRemove key.

Definition clearSession (cs : CartStorage) : M World unit :=
  if useSession cs then on_storage sessionStorage_t clearItems
  else sessionClear.

Definition setLocalItem (cs : CartStorage) (key : string) (value : text) : M World unit :=
  if useLocal cs then on_storage localStorage_t (setItem key value)
  else localSet key value.

Definition getLocalItem (cs : CartStorage) (key : string) : M World (option text) :=
  if useLocal cs then on_storage localStorage_t (getItem key)
  else localGet key.

Definition removeLocalItem (cs : CartStorage) (key : string) : M World unit :=
  if useLocal cs then on_storage localStorage_t (removeItem key)
  else localRemove key.

(** *** Sequences of adapter calls *)

Inductive Op : Type :=
| SetSessionItem (key : string) (value : text)
| GetSessionItem (key : string)
| RemoveSessionItem (key : string)
| ClearSession
| SetLocalItem (key : string) (value : text)
| GetLocalItem (key : string)
| RemoveLocalItem (key : string).

Definition scope (o : Op) : storage_type :=
  match o with
  | SetSessionItem _ _ | GetSessionItem _ | RemoveSessionItem _ | ClearSession =>
      sessionStorage_t
  | SetLocalItem _ _ | GetLocalItem _ | RemoveLocalItem _ => localStorage_t
  end.

Definition available (cs : CartStorage) (type : storage_type) : bool :=
  match type with
  | sessionStorage_t => useSession cs
  | localStorage_t => useLocal cs
  end.

(** What a call gives back: [undefined] for the writers, a string or [null]
    for the readers. *)
Inductive returned : Type :=
| Undefined
| Value (v : option text).

Definition undefined {S} (m : M S unit) : M S returned :=
  run! m in ret Undefined.

Definition value {S} (m : M S (option text)) : M S returned :=
  let! v := m in ret (Value v).

Definition call (cs : CartStorage) (o : Op) : M World returned :=
  match o with
  | SetSessionItem k v => undefined (setSessionItem cs k v)
  | GetSessionItem k => value (getSessionItem cs k)
  | RemoveSessionItem k => undefined (removeSessionItem cs k)
  | ClearSession => undefined (clearSession cs)
  | SetLocalItem k v => undefined (setLocalItem cs k v)
  | GetLocalItem k => value (getLocalItem cs k)
  | RemoveLocalItem k => undefined (removeLocalItem cs k)
  end.

(** The same call made on the browser's object, and made on the fallback. *)
Definition host_call (o : Op) : M World returned :=
  match o with
  | SetSessionItem k v | SetLocalItem k v =>
      undefined (on_storage (scope o) (setItem k v))
  | GetSessionItem k | GetLocalItem k => value (on_storage (scope o) (getItem k))
  | RemoveSessionItem k | RemoveLocalItem k =>
      undefined (on_storage (scope o) (removeItem k))
  | ClearSession => undefined (on_storage sessionStorage_t clearItems)
  end.

Definition fallback_call (o : Op) : M World returned :=
  match o with
  | SetSessionItem k v => undefined (sessionSet k v)
  | GetSessionItem k => value (sessionGet k)
  | RemoveSessionItem k => undefined (sessionRemove k)
  | ClearSession => undefined sessionClear
  | SetLocalItem k v => undefined (localSet k v)
  | GetLocalItem k => value (localGet k)
  | RemoveLocalItem k => undefined (localRemove k)
  end.

(** Calls made one after the other.  A call that throws ends the handler that
    made it, not the page: the next call finds the state it left. *)
Fixpoint calls (cs : CartStorage) (ops : list Op) (w : World)
  : list (completion returned) * World :=
  match ops with
  | [] => ([], w)
  | o :: ops' =>
      let (r, w1) := call cs o w in
      let (rs, w2) := calls cs ops' w1 in
      (r :: rs, w2)
  end.

End StorageAdapter.

Arguments World {R} H.

(** ** The page (lines 57-329) *)

(** The values of the four inputs of the feedback form. *)
Record FeedbackForm : Set := {
  feedback_name : string;
  feedback_email : string;
  feedback_phone : string;
  feedback_message : string
}.

(** The checks of the newsletter form (lines 128-142), in their order: the
    message of the first one that fails. *)
Definition newsletter_check (email : string) : option string :=
  if is_empty email then Some "Please enter an email address."
  else if negb (includes_at email) then
    Some ("Please include a " ++ dq ++ "@" ++ dq ++ " in the email address.")
  else
    let emailParts := split_at email in
    if match emailParts with
       | [part0; part1] => is_empty part0 || is_empty part1
       | _ => true
       end
    then Some "Please enter a valid email address."
    else None.

(** The checks of the feedback form on the email (lines 289-303). *)
Definition feedback_email_check (email : string) : option string :=
  if is_empty email then Some "Please enter your email address."
  else if negb (includes_at email) then
    Some ("Please include a " ++ dq ++ "@" ++ dq ++ " in the email address.")
  else
    let emailParts := split_at email in
    if match emailParts with
       | [part0; part1] => is_empty part0 || is_empty part1
       | _ => true
       end
    then Some "Please enter a valid email address."
    else None.

(** The checks of the feedback form (lines 284-308), in their order. *)
Definition feedback_check (name email message : string) : option string :=
  if is_empty name then Some "Please enter your name."
  else match feedback_email_check email with
       | Some alert => Some alert
       | None =>
           if is_empty message then Some "Please enter your issue/order information."
           else None
       end.

Section Page.
Context `{R : Runtime} {H : Type} `{!StorageArea H}.
Variable cartStorage : CartStorage.

(* lines 59-98: the message is put on the screen *)
Definition showCustomAlert (message : string) : M (World H) unit :=
  fun w => (Normal tt,
            {| sessionStorage := sessionStorage w; localStorage := localStorage w;
               _session := _session w; _local := _local w;
               alerts := (alerts w ++ [message])%list |}).

(* lines 101-103 *)
Definition saveCartToSession (cartItems : Cart) : M (World H) unit :=
  setSessionItem cartStorage "cartItems" (JSON_stringify_cart cartItems).

(* lines 105-108 *)
Definition getCartFromSession : M (World H) Cart :=
  let! cartData := getSessionItem cartStorage "cartItems" in
  match cartData with
  | Some t => if truthy t then lift (JSON_parse_cart t) else ret []
  | None => ret []
  end.

(* lines 110-112 *)
Definition clearCartFromSession : M (World H) unit :=
  removeSessionItem cartStorage "cartItems".

(* lines 114-116 *)
Definition saveCustomerToLocal (customerData : CustomerData) : M (World H) unit :=
  setLocalItem cartStorage "customerData" (JSON_stringify_customer customerData).

(** Lines 122-146, the submit handler of the newsletter form.  [value] is
    the value of the input; the result is its value afterwards. *)
Definition newsletter_submit (value : string) : M (World H) string :=
  let email := trim value in
  match newsletter_check email with
  | Some alert => run! showCustomAlert alert in ret value
  | None =>
      run! showCustomAlert
             ("You are now subscribed to our newsletter with email: " ++ email) in
      ret ""
  end.

(** Lines 164-172 on the cart object.  [cartItems[itemId]] is truthy for an
    own item and for an inherited property; on the latter [.quantity += 1]
    writes to the inherited object and leaves the cart as it was. *)
Definition add_item (cartItems : Cart) (itemId itemName : string) (itemPrice : float)
  : Cart :=
  match get cartItems itemId with
  | Own _ => increment itemId cartItems
  | Inherited => cartItems
  | Absent =>
      add_property itemId
        {| name := itemName; price := Some itemPrice; quantity := 1 |} cartItems
  end.

(** Lines 155-177, the click handler of an add-to-cart button with the
    attributes [data-id], [data-name] and ([parseFloat] of) [data-price]. *)
Definition addToCart_click (itemId itemName : string) (itemPrice : float)
  : M (World H) unit :=
  let! cartItems := getCartFromSession in
  let cartItems := add_item cartItems itemId itemName itemPrice in
  run! saveCartToSession cartItems in
  showCustomAlert "Item added to cart!".

(** Lines 197-202, the callback of [itemKeys.map]: [acc] is [totalPrice] and
    the strings made so far.  [itemId] is a key of [cartItems]. *)
Definition view_item (cartItems : Cart) (acc : float * list string) (itemId : string)
  : float * list string :=
  match own cartItems itemId with
  | Some item =>
      let itemTotal :=
        (Number_of_price (price item) * Number_of_count (quantity item))%float in
      ((fst acc + itemTotal)%float,
       (snd acc ++ [(name item ++ " (x" ++ String_of_count (quantity item) ++ ") - $"
                     ++ toFixed2 itemTotal)%string])%list)
  | None => acc
  end.

(* lines 189-212 *)
Definition viewCart_click : M (World H) unit :=
  let! cartItems := getCartFromSession in
  let itemKeys := keys cartItems in
  if (length itemKeys =? 0)%nat then showCustomAlert "Your cart is empty"
  else
    let (totalPrice, cartItemStrings) :=
      fold_left (view_item cartItems) itemKeys (0%float, []) in
    let cartMessage :=
      "Cart Contents:" ++ nl ++ nl ++ join nl cartItemStrings
        ++ nl ++ nl ++ "Total: $" ++ toFixed2 totalPrice in
    showCustomAlert cartMessage.

(* lines 218-228 *)
Definition clearCart_click : M (World H) unit :=
  let! cartItems := getCartFromSession in
  let itemKeys := keys cartItems in
  if (length itemKeys =? 0)%nat then showCustomAlert "No items to clear"
  else
    run! clearCartFromSession in
    showCustomAlert "Cart has been cleared!".

(** Lines 240-242, the callback of [itemKeys.forEach]:
    [totalItems += cartItems[itemId].quantity], a sum of doubles. *)
Definition count_item (cartItems : Cart) (totalItems : count) (itemId : string)
  : count :=
  match own cartItems itemId with
  | Some item => Number_add totalItems (quantity item)
  | None => totalItems
  end.

(* lines 234-251 *)
Definition processOrder_click : M (World H) unit :=
  let! cartItems := getCartFromSession in
  let itemKeys := keys cartItems in
  if (0 <? length itemKeys)%nat then
    let totalItems := fold_left (count_item cartItems) itemKeys (Finite 0) in
    run! showCustomAlert
           ("Order processed successfully! " ++ String_of_total totalItems
              ++ " item(s) ordered.") in
    clearCartFromSession
  else showCustomAlert "No items in cart".

(** Lines 259-272: the stored contact details are put into the form; the
    message is not. *)
Definition loadCustomerData (form : FeedbackForm) : M (World H) FeedbackForm :=
  let! customerData := getLocalItem cartStorage "customerData" in
  match customerData with
  | Some t =>
      if truthy t then
        let! data := lift (JSON_parse_customer t) in
        ret {| feedback_name := cd_name data; feedback_email := cd_email data;
               feedback_phone := cd_phone data;
               feedback_message := feedback_message form |}
      else ret form
  | None => ret form
  end.

(** Lines 310-316: the record made of the trimmed fields; [now] is
    [new Date().toISOString()]. *)
Definition customer_of (form : FeedbackForm) (now : string) : CustomerData :=
  {| cd_name := trim (feedback_name form);
     cd_email := trim (feedback_email form);
     cd_phone := trim (feedback_phone form);
     cd_lastMessage := trim (feedback_message form);
     cd_timestamp := now |}.

(* line 327: only the message field is cleared *)
Definition message_cleared (form : FeedbackForm) : FeedbackForm :=
  {| feedback_name := feedback_name form;
     feedback_email := feedback_email form;
     feedback_phone := feedback_phone form;
     feedback_message := "" |}.

(** Lines 276-328, the submit handler of the feedback form.  [form] has the
    values of the inputs; the result has their values afterwards. *)
Definition feedback_submit (form : FeedbackForm) (now : string)
  : M (World H) FeedbackForm :=
  let name := trim (feedback_name form) in
  let email := trim (feedback_email form) in
  let message := trim (feedback_message form) in
  match feedback_check name email message with
  | Some alert => run! showCustomAlert alert in ret form
  | None =>
      let customerData := customer_of form now in
      run! saveCustomerToLocal customerData in
      run! showCustomAlert
             ("Thank you for your message, " ++ name
                ++ "! We will get back to you soon.") in
      ret (message_cleared form)
  end.

(** The buttons of the gallery page, and clicks made one after the other. *)
Inductive button : Type :=
| AddToCart (itemId itemName : string) (itemPrice : float)
| ViewCart
| ClearCart
| ProcessOrder.

Definition click (b : button) : M (World H) unit :=
  match b with
  | AddToCart itemId itemName itemPrice => addToCart_click itemId itemName itemPrice
  | ViewCart => viewCart_click
  | ClearCart => clearCart_click
  | ProcessOrder => processOrder_click
  end.

Definition clicks (bs : list button) (w : World H) : World H :=
  fold_left (fun w b => (click b w).2) bs w.

End Page.

(** ** Storage areas and a runtime to compute with *)

(** A storage area that works: it holds what was set, and no call throws.
    [items] is what it holds. *)
Class Reliable `{R : Runtime} (H : Type) `{!StorageArea H} : Type := {
  items : H → gmap string text;
  setItem_returns : ∀ k v h, fst (setItem k v h) = Normal tt;
  setItem_items : ∀ k v h, items (snd (setItem k v h)) = <[k := v]> (items h);
  getItem_returns : ∀ k h, getItem k h = (Normal (items h !! k), h);
  removeItem_returns : ∀ k h, fst (removeItem k h) = Normal tt;
  removeItem_items : ∀ k h, items (snd (removeItem k h)) = delete k (items h);
  clearItems_returns : ∀ h, fst (clearItems h) = Normal tt;
  clearItems_items : ∀ h, items (snd (clearItems h)) = ∅
}.

(** The plain one: the area is the map itself. *)
Definition plain_area (R : Runtime) : StorageArea (gmap string text) :=
  {| setItem k v := fun h => (Normal tt, <[k := v]> h);
     getItem k := fun h => (Normal (h !! k), h);
     removeItem k := fun h => (Normal tt, delete k h);
     clearItems := fun _ => (Normal tt, ∅) |}.

Definition plain_reliable (R : Runtime) : @Reliable R _ (plain_area R).
Proof. refine {| items := fun h => h |}; reflexivity. Defined.

(** An area with a quota: [setItem] throws [QuotaExceededError] when the
    keys and values would take more than [capacity], as measured by
    [size]. *)
Record QuotaArea `{R : Runtime} : Type := {
  stored : gmap string text;
  capacity : nat
}.

Definition usage `{R : Runtime} (size : text → nat) (m : gmap string text) : nat :=
  map_fold (fun k v n => (String.length k + size v + n)%nat) 0%nat m.

Definition quota_area `{R : Runtime} (size : text → nat) : StorageArea QuotaArea :=
  {| setItem k v := fun h =>
       let m := <[k := v]> (stored h) in
       if (usage size m <=? capacity h)%nat
       then (Normal tt, {| stored := m; capacity := capacity h |})
       else (Throw QuotaExceededError, h);
     getItem k := fun h => (Normal (stored h !! k), h);
     removeItem k := fun h =>
       (Normal tt, {| stored := delete k (stored h); capacity := capacity h |});
     clearItems := fun h => (Normal tt, {| stored := ∅; capacity := capacity h |}) |}.

(** The symbolic runtime: the text [JSON.stringify] returns for an object is
    kept as the object [JSON.parse] reads from it.  A plain string stands
    for a text that is not the text of a cart or of a customer record: the
    script stores none under its two keys. *)
Inductive symbolic_text : Type :=
| Str (s : string)
| CartText (o : Cart)
| CustomerText (d : CustomerData).

Definition symbolic : Runtime :=
  {| text := symbolic_text;
     text_of_string := Str;
     truthy t := match t with Str s => negb (is_empty s) | _ => true end;
     JSON_stringify_cart o := CartText (json_cart o);
     JSON_parse_cart t :=
       match t with CartText o => Normal o | _ => Throw SyntaxError end;
     JSON_stringify_customer := CustomerText;
     JSON_parse_customer t :=
       match t with CustomerText d => Normal d | _ => Throw SyntaxError end;
     truthy_string := fun _ => eq_refl;
     truthy_cart := fun _ => eq_refl;
     truthy_customer := fun _ => eq_refl;
     parse_stringify_cart := fun _ _ => eq_refl;
     parse_stringify_customer := fun _ => eq_refl |}.

(* the length of a plain string; the text of an object is not charged *)
Definition symbolic_size (t : symbolic_text) : nat :=
  match t with Str s => String.length s | _ => 0%nat end.

(** A page without storage objects, and one whose session storage has a
    quota of [capacity]. *)
Definition blocked_page : @World symbolic (gmap string symbolic_text) :=
  {| sessionStorage := None; localStorage := None;
     _session := ∅; _local := ∅; alerts := [] |}.

Definition plain_page : @World symbolic (gmap string symbolic_text) :=
  {| sessionStorage := Some ∅; localStorage := Some ∅;
     _session := ∅; _local := ∅; alerts := [] |}.

Definition quota_page (capacity : nat) : @World symbolic (@QuotaArea symbolic) :=
  {| sessionStorage := Some {| stored := ∅; capacity := capacity |};
     localStorage := None;
     _session := ∅; _local := ∅; alerts := [] |}.

(** The adapter of a page without storage objects, and of one with both. *)
Definition fallback_only : CartStorage := {| useSession := false; useLocal := false |}.
Definition both_real : CartStorage := {| useSession := true; useLocal := true |}.

(** The cart of the specification's example, and pages that hold a cart: in
    the fallback, and in the session storage. *)
Definition example_cart : Cart :=
  [ ("A", {| name := "A"; price := Some 10%float; quantity := 2 |});
    ("B", {| name := "B"; price := Some 5%float; quantity := 1 |}) ].



Definition big_cart : Cart :=
  [ ("A", {| name := "A"; price := Some 1%float; quantity := 2 ^ 53 |});
    ("B", {| name := "B"; price := Some 1%float; quantity := 1 |}) ].

Definition fallback_cart_page (o : Cart) : @World symbolic (gmap string symbolic_text) :=
  {| sessionStorage := None; localStorage := None;
     _session := {[ "cartItems" := CartText o ]}; _local := ∅; alerts := [] |}.

Definition storage_cart_page (o : Cart) : @World symbolic (gmap string symbolic_text) :=
  {| sessionStorage := Some {[ "cartItems" := CartText o ]}; localStorage := Some ∅;
     _session := ∅; _local := ∅; alerts := [] |}.

(** Feedback forms: one with a malformed email and no message, and two that
    pass the checks, the second with the phone left blank. *)
Definition malformed_form : FeedbackForm :=
  {| feedback_name := "Bob"; feedback_email := "foo";
     feedback_phone := ""; feedback_message := "" |}.

Definition first_form : FeedbackForm :=
  {| feedback_name := "Ann"; feedback_email := "ann@example.com";
     feedback_phone := "555-0100"; feedback_message := "first" |}.

Definition second_form : FeedbackForm :=
  {| feedback_name := "Ann"; feedback_email := "ann@example.com";
     feedback_phone := ""; feedback_message := "second" |}.

(** ** What a page holds *)

Section Views.
Context `{R : Runtime} {H : Type} `{!StorageArea H} `{!Reliable H}.
Variable cartStorage : CartStorage.

(** The session scope and the durable scope as the adapter serves them: the
    browser's area when the probe found it, the fallback's object when not. *)
Definition session_items (w : World H) : gmap string text :=
  if useSession cartStorage
  then match sessionStorage w with Some h => items h | None => ∅ end
  else _session w.

Definition local_items (w : World H) : gmap string text :=
  if useLocal cartStorage
  then match localStorage w with Some h => items h | None => ∅ end
  else _local w.

(** The adapter and the page fit: an area the adapter uses is there.  The
    adapter installed at load time fits the page it was loaded in. *)
Definition ready (type : storage_type) (w : World H) : Prop :=
  available cartStorage type = true → is_Some (window type w).

Definition fits (w : World H) : Prop := ∀ type, ready type w.

(* lines 106-107 on what the session scope holds *)
Definition stored_cart (m : gmap string text) : completion Cart :=
  match m !! "cartItems" with
  | Some t => if truthy t then JSON_parse_cart t else Normal []
  | None => Normal []
  end.

(** The page holds the cart [cartItems]: the handlers read it from the
    session scope, and it is an object as [JSON] writes one. *)
Definition holds_cart (w : World H) (cartItems : Cart) : Prop :=
  getCartFromSession cartStorage w = (Normal cartItems, w)
  ∧ is_object cartItems = true
  ∧ json_cart cartItems = cartItems.

End Views.

(** ** The cart as the specification describes it *)

(* [price * quantity] of an item *)
Definition item_total (item : CartItem) : float :=
  (Number_of_price (price item) * Number_of_count (quantity item))%float.

(* the sum over the items, in the order of the keys *)
Definition grand_total (cartItems : Cart) : float :=
  fold_left (fun total p => (total + item_total p.2)%float) cartItems 0%float.

(* the display string of an item *)
Definition item_line (item : CartItem) : string :=
  name item ++ " (x" ++ String_of_count (quantity item) ++ ") - $"
    ++ toFixed2 (item_total item).

Definition cart_message (cartItems : Cart) : string :=
  "Cart Contents:" ++ nl ++ nl ++ join nl (map (fun p => item_line p.2) cartItems)
    ++ nl ++ nl ++ "Total: $" ++ toFixed2 (grand_total cartItems).

(* an entry with a quantity of at least 1 *)
Definition counted (p : string * CartItem) : Prop := (1 ≤ quantity p.2)%N.

(* the sum of the quantities *)
Definition total_quantity (cartItems : Cart) : N :=
  foldr (fun p n => (quantity p.2 + n)%N) 0%N cartItems.

(* the count that the order button reports: the quantities added up as the
   doubles add, in the order of the keys *)
Definition items_ordered (cartItems : Cart) : count :=
  fold_left (fun total p => Number_add total (quantity p.2)) cartItems (Finite 0).

(** ** Amounts as the specification describes them *)






(** ** The forms as the specification describes them *)

(** "Exactly one [@] with non-empty text on both sides". *)
Definition one_at_between_texts (email : string) : Prop :=
  ∃ l r, email = l ++ "@" ++ r
         ∧ l ≠ "" ∧ r ≠ ""
         ∧ includes_at l = false ∧ includes_at r = false.

(* the feedback form passes all checks *)
Definition accepted (form : FeedbackForm) : Prop :=
  feedback_check (trim (feedback_name form)) (trim (feedback_email form))
    (trim (feedback_message form)) = None.

(** ** The sentences of the specification that the code does not follow,
       in the words of the specification *)

(** A rule of the feedback form checks that a field is present, or the shape
    of the email. *)
Inductive rule : Set :=
| NamePresent
| EmailPresent
| EmailIncludesAt
| EmailShape
| MessagePresent.

Inductive rule_kind : Set := Presence | Shape.

Definition kind (r : rule) : rule_kind :=
  match r with
  | NamePresent | EmailPresent | MessagePresent => Presence
  | EmailIncludesAt | EmailShape => Shape
  end.

(* the rule holds of the trimmed fields *)
Definition passes (name email message : string) (r : rule) : bool :=
  match r with
  | NamePresent => negb (is_empty name)
  | EmailPresent => negb (is_empty email)
  | EmailIncludesAt => includes_at email
  | EmailShape =>
      match split_at email with
      | [part0; part1] => negb (is_empty part0 || is_empty part1)
      | _ => false
      end
  | MessagePresent => negb (is_empty message)
  end.

Definition rule_alert (r : rule) : string :=
  match r with
  | NamePresent => "Please enter your name."
  | EmailPresent => "Please enter your email address."
  | EmailIncludesAt =>
      "Please include a " ++ dq ++ "@" ++ dq ++ " in the email address."
  | EmailShape => "Please enter a valid email address."
  | MessagePresent => "Please enter your issue/order information."
  end.

(* the first rule of [order] that fails *)
Definition first_failing (order : list rule) (name email message : string)
  : option rule :=
  List.find (fun r => negb (passes name email message r)) order.

(* the same, of the fields of the form as the handler trims them *)
Definition fails (form : FeedbackForm) (r : rule) : Prop :=
  passes (trim (feedback_name form)) (trim (feedback_email form))
    (trim (feedback_message form)) r = false.

Definition first_failing_of (order : list rule) (form : FeedbackForm) : option rule :=
  first_failing order (trim (feedback_name form)) (trim (feedback_email form))
    (trim (feedback_message form)).

(** The order of the checks in the source (lines 284-308). *)
Definition source_order : list rule :=
  [NamePresent; EmailPresent; EmailIncludesAt; EmailShape; MessagePresent].

(** An order as the specification has it: every presence check before every
    shape check. *)
Fixpoint presence_before_shape (order : list rule) : bool :=
  match order with
  | [] => true
  | r :: order' =>
      match kind r with
      | Presence => true
      | Shape => forallb (fun r' => match kind r' with Shape => true | Presence => false end) order'
      end && presence_before_shape order'
  end.

(** "[name]/[email]/[phone] persist from the most recent submission that
    supplied them": the value of the field in the last submission, of those
    listed oldest first, in which it is not blank. *)
Definition latest_supplied (values : list string) : string :=
  fold_left (fun kept v => if is_empty (trim v) then kept else trim v) values "".

(** ** The alert box (lines 59-98) *)

(* [s.includes(needle)] *)
Fixpoint includes (needle s : string) : bool :=
  String.prefix needle s
  || match s with
     | EmptyString => false
     | String _ s' => includes needle s'
     end.

(* [s.replace(/\n/g, '<br>')] *)
Fixpoint replace_line_feeds (s : string) : string :=
  match s with
  | EmptyString => EmptyString
  | String c s' =>
      if Ascii.eqb c "010" then "<br>" ++ replace_line_feeds s'
      else String c (replace_line_feeds s')
  end.

(* whether the character is one of the string *)
Fixpoint occurs (c : ascii) (s : string) : bool :=
  match s with
  | EmptyString => false
  | String d s' => Ascii.eqb c d || occurs c s'
  end.

(** What the box shows, the markup given to [innerHTML] or the text given to
    [textContent], and the milliseconds after which it is removed. *)
Inductive box_content : Set :=
| InnerHTML (html : string)
| TextContent (text : string).

Record AlertBox : Set := {
  content : box_content;
  timeout : N
}.

Definition alert_box (message : string) : AlertBox :=
  {| content := if includes nl message then InnerHTML (replace_line_feeds message)
                else TextContent message;
     timeout := if includes "Cart Contents" message then 5000%N else 3000%N |}.

(** ** The adapter as two maps

    The session scope and the durable scope as maps from keys to texts, and
    each operation of the adapter on them.  A write of the fallback is
    [assign]; a write of a storage object sets the key. *)
Record Scopes `{R : Runtime} : Type := {
  session : gmap string text;
  durable : gmap string text
}.

Definition put `{R : Runtime} (real : bool) (k : string) (v : text)
    (m : gmap string text) : gmap string text :=
  if real then <[k := v]> m else assign k v m.

Definition map_call `{R : Runtime} (cs : CartStorage) (o : Op) (s : Scopes)
  : returned * Scopes :=
  match o with
  | SetSessionItem k v =>
      (Undefined, {| session := put (useSession cs) k v (session s);
                     durable := durable s |})
  | GetSessionItem k => (Value (session s !! k), s)
  | RemoveSessionItem k =>
      (Undefined, {| session := delete k (session s); durable := durable s |})
  | ClearSession => (Undefined, {| session := ∅; durable := durable s |})
  | SetLocalItem k v =>
      (Undefined, {| session := session s;
                     durable := put (useLocal cs) k v (durable s) |})
  | GetLocalItem k => (Value (durable s !! k), s)
  | RemoveLocalItem k =>
      (Undefined, {| session := session s; durable := delete k (durable s) |})
  end.

Fixpoint map_calls `{R : Runtime} (cs : CartStorage) (ops : list Op) (s : Scopes)
  : list returned * Scopes :=
  match ops with
  | [] => ([], s)
  | o :: ops' =>
      let (r, s1) := map_call cs o s in
      let (rs, s2) := map_calls cs ops' s1 in
      (r :: rs, s2)
  end.

(* what the adapter serves on a page *)
Definition scopes_of `{R : Runtime} {H : Type} `{!StorageArea H} `{!Reliable H}
    (cs : CartStorage) (w : World H) : Scopes :=
  {| session := session_items cs w; durable := local_items cs w |}.

(* whether the window has the storage object *)
Definition has_storage `{R : Runtime} {H : Type} (type : storage_type)
    (w : World H) : bool :=
  match window type w with Some _ => true | None => false end.

(** ** Clicks, with what each handler returns *)

(* the clicks one after the other; a handler that throws leaves the page to
   the next click as it is then *)
Fixpoint clicked `{R : Runtime} {H : Type} `{!StorageArea H}
    (cs : CartStorage) (bs : list button) (w : World H)
  : list (completion unit) * World H :=
  match bs with
  | [] => ([], w)
  | b :: bs' =>
      let (r, w1) := click cs b w in
      let (rs, w2) := clicked cs bs' w1 in
      (r :: rs, w2)
  end.

(** ** Clicks on add-to-cart buttons *)

(* the clicks on the buttons with these ids, names and prices *)
Definition add_clicks (args : list (string * string * float)) : list button :=
  map (fun a => AddToCart a.1.1 a.1.2 a.2) args.

(** ** The feedback form on the next visit *)

(* the form as the page has it before [loadCustomerData] fills it *)
Definition blank_form : FeedbackForm :=
  {| feedback_name := ""; feedback_email := ""; feedback_phone := "";
     feedback_message := "" |}.

(* the message is typed into the form *)
Definition with_message (form : FeedbackForm) (message : string) : FeedbackForm :=
  {| feedback_name := feedback_name form;
     feedback_email := feedback_email form;
     feedback_phone := feedback_phone form;
     feedback_message := message |}.

(** ** More pages *)

(* a page whose fallback holds a text under [cartItems] *)
Definition fallback_text_page (t : symbolic_text)
  : @World symbolic (gmap string symbolic_text) :=
  {| sessionStorage := None; localStorage := None;
     _session := {[ "cartItems" := t ]}; _local := ∅; alerts := [] |}.

(* a cart with an array index and another id *)
Definition mixed_cart : Cart :=
  [ ("7", {| name := "Seven"; price := Some 7%float; quantity := 1 |});
    ("b", {| name := "Bee"; price := Some 2%float; quantity := 4 |}) ].

(** ** Numbers as text *)

Section Numbers.
Open Scope Z_scope.






End Numbers.

(** ** Counts as doubles *)

Section Counts.
Open Scope N_scope.

(** The integers up to [2^53] are doubles: the sums that stay there are
    exact, and their digits are all written. *)
Lemma round53_safe n : n ≤ 2 ^ 53 → round53 n = n.
Proof.
  intros Hn. unfold round53. destruct (n <? 2 ^ 53) eqn:Hlt; [done|].
  apply N.ltb_ge in Hlt. assert (n = 2 ^ 53) as -> by lia.
  vm_compute. reflexivity.
Qed.

(* [2^53 + 1] is halfway between two doubles, and [2^53] is the even one *)
Lemma round53_stalls : round53 (2 ^ 53 + 1) = 2 ^ 53.
Proof. vm_compute. reflexivity. Qed.

Lemma round53_pos n : 1 ≤ n → 1 ≤ round53 n.
Proof.
  intros Hn. unfold round53. destruct (n <? 2 ^ 53) eqn:Hlt; [done|].
  apply N.ltb_ge in Hlt.
  set (e := N.log2 n - 52).
  assert (2 ^ e ≤ n) as He.
  { etrans; [|apply N.log2_spec; lia].
    apply N.pow_le_mono_r; [done | unfold e; lia]. }
  assert (0 < 2 ^ e) as Hpos by (apply N.neq_0_lt_0, N.pow_nonzero; done).
  assert (1 ≤ n / 2 ^ e) as Hm.
  { apply N.div_le_lower_bound; lia. }
  destruct (_ || _); nia.
Qed.

Lemma Number_add_safe a b : a + b ≤ 2 ^ 53 → Number_add (Finite a) b = Finite (a + b).
Proof.
  intros Hab. unfold Number_add. rewrite round53_safe by done.
  assert ((a + b <? 2 ^ 1024) = true) as ->; [|done].
  apply N.ltb_lt. eapply N.le_lt_trans; [exact Hab|].
  apply N.pow_lt_mono_r; lia.
Qed.

Lemma String_of_count_safe n : n ≤ 2 ^ 53 → String_of_count n = pretty n.
Proof.
  intros Hn. unfold String_of_count. destruct (n <? 2 ^ 53) eqn:Hlt; [done|].
  apply N.ltb_ge in Hlt. assert (n = 2 ^ 53) as -> by lia.
  vm_compute. reflexivity.
Qed.

Lemma quantity_le_total (cartItems : Cart) k item :
  own cartItems k = Some item → quantity item ≤ total_quantity cartItems.
Proof.
  induction cartItems as [|[k' item'] o IH]; simpl; [done|].
  destruct (String.eqb k k').
  - intros [= ->]. lia.
  - intros Ho. specialize (IH Ho). lia.
Qed.

(** The count that the order button reports is the sum of the quantities
    when this sum is at most [2^53]. *)
Lemma items_ordered_from (cartItems : Cart) a :
  a + total_quantity cartItems ≤ 2 ^ 53 →
  fold_left (fun total p => Number_add total (quantity p.2)) cartItems (Finite a)
  = Finite (a + total_quantity cartItems).
Proof.
  revert a. induction cartItems as [|[k item] o IH]; intros a Hsum.
  - simpl. by rewrite N.add_0_r.
  - simpl in Hsum. cbn [fold_left snd].
    rewrite Number_add_safe by lia. rewrite IH by lia.
    simpl. f_equal. lia.
Qed.

Lemma items_ordered_safe (cartItems : Cart) :
  total_quantity cartItems ≤ 2 ^ 53 →
  items_ordered cartItems = Finite (total_quantity cartItems).
Proof. intros Hsum. unfold items_ordered. by rewrite items_ordered_from. Qed.

End Counts.

(** * Theorems *)

(** ** The storage adapter *)

Section StorageAdapterFacts.
Context `{R : Runtime} {H : Type} `{!StorageArea H}.
Implicit Types (cs : CartStorage) (w : World H) (o : Op) (type : storage_type).

Lemma window_set_window type type' h w :
  window type (set_window type' h w) =
  if decide (type = type') then Some h else window type w.
Proof. destruct type, type'; reflexivity. Qed.

(** The probe completes, whatever the browser's object does. *)
Lemma isStorageAvailable_returns type w :
  ∃ b w', isStorageAvailable type w = (Normal b, w').
Proof.
  unfold isStorageAvailable, try_catch, bind, on_storage, ret.
  destruct (window type w) as [h|]; [|eauto].
  destruct (setItem testKey (text_of_string "1") h) as [[[]|e] h1]; [|eauto].
  rewrite window_set_window, decide_True by done.
  destruct (removeItem testKey h1) as [[[]|e] h2]; eauto.
Qed.

(** It answers [true] only when the object is there. *)
Lemma isStorageAvailable_true type w w' :
  isStorageAvailable type w = (Normal true, w') → is_Some (window type w').
Proof.
  unfold isStorageAvailable, try_catch, bind, on_storage, ret.
  destruct (window type w) as [h|]; [|congruence].
  destruct (setItem testKey (text_of_string "1") h) as [[[]|e] h1]; [|congruence].
  rewrite window_set_window, decide_True by done.
  destruct (removeItem testKey h1) as [[[]|e] h2]; [|congruence].
  intros [= <-]. rewrite window_set_window, decide_True; eauto.
Qed.

(** It leaves the other object as it was. *)
Lemma isStorageAvailable_other type type' b w w' :
  type' ≠ type →
  isStorageAvailable type w = (Normal b, w') → window type' w' = window type' w.
Proof.
  intros Hne. unfold isStorageAvailable, try_catch, bind, on_storage, ret.
  destruct (window type w) as [h|]; [|by intros [= _ <-]].
  destruct (setItem testKey (text_of_string "1") h) as [[[]|e] h1].
  - rewrite window_set_window, decide_True by done.
    destruct (removeItem testKey h1) as [[[]|e] h2]; intros [= _ <-];
      rewrite !window_set_window, !decide_False by done; done.
  - intros [= _ <-]. by rewrite window_set_window, decide_False.
Qed.

Lemma load_cartStorage_probes w0 :
  ∃ s l w1 w2,
    isStorageAvailable sessionStorage_t (new_fallback w0).2 = (Normal s, w1)
    ∧ isStorageAvailable localStorage_t w1 = (Normal l, w2)
    ∧ load_cartStorage w0 = (Normal {| useSession := s; useLocal := l |}, w2).
Proof.
  destruct (isStorageAvailable_returns sessionStorage_t (new_fallback w0).2)
    as (s & w1 & Hs).
  destruct (isStorageAvailable_returns localStorage_t w1) as (l & w2 & Hl).
  exists s, l, w1, w2. split; [done|]. split; [done|].
  unfold load_cartStorage, bind. simpl in *. by rewrite Hs, Hl.
Qed.

(** The adapter installed at load time fits the page. *)
Lemma load_cartStorage_fits w0 cs w :
  load_cartStorage w0 = (Normal cs, w) → fits cs w.
Proof.
  destruct (load_cartStorage_probes w0) as (s & l & w1 & w2 & Hs & Hl & Hload).
  rewrite Hload. intros [= <- <-] [] Hav; simpl in Hav; subst.
  - assert (sessionStorage_t ≠ localStorage_t) as Hne by done.
    rewrite (isStorageAvailable_other _ _ _ _ _ Hne Hl).
    by apply isStorageAvailable_true in Hs.
  - by apply isStorageAvailable_true in Hl.
Qed.

(** Each call is routed by the constant of its scope. *)
Lemma call_routed cs o :
  call cs o = if available cs (scope o) then host_call o else fallback_call o.
Proof. destruct cs as [[] []], o; reflexivity. Qed.

(** A call on the fallback completes and leaves the browser's objects and
    the screen as they were. *)
Lemma fallback_call_completes o w :
  ∃ r w', fallback_call o w = (Normal r, w')
          ∧ sessionStorage w' = sessionStorage w
          ∧ localStorage w' = localStorage w
          ∧ alerts w' = alerts w.
Proof. destruct o; simpl; eauto 10. Qed.

(** A call on a browser's object leaves the other object as it was. *)
Lemma on_storage_other {A} type type' (m : M H A) w :
  type' ≠ type → window type' (on_storage type m w).2 = window type' w.
Proof.
  intros Hne. unfold on_storage. destruct (window type w) as [h|]; [|done].
  destruct (m h) as [r h']. simpl. by rewrite window_set_window, decide_False.
Qed.

Lemma host_call_other o type w :
  type ≠ scope o → window type (host_call o w).2 = window type w.
Proof.
  intros Hne.
  destruct o; simpl in *; unfold undefined, value, bind;
    match goal with
    | |- context [on_storage ?t ?m w] =>
        pose proof (on_storage_other t type m w Hne) as Hw;
        destruct (on_storage t m w) as [[a|e] w']; simpl in *; exact Hw
    end.
Qed.

Lemma call_unavailable cs o type w :
  available cs type = false →
  window type (call cs o w).2 = window type w
  ∧ (scope o = type → completes (call cs o w).1 = true).
Proof.
  intros Hav. rewrite call_routed.
  destruct (available cs (scope o)) eqn:Ho.
  - assert (type ≠ scope o) by congruence.
    split; [by apply host_call_other | congruence].
  - destruct (fallback_call_completes o w) as (r & w' & -> & Hs & Hl & _).
    split; [by destruct type | done].
Qed.

Lemma calls_length cs ops w : length (calls cs ops w).1 = length ops.
Proof.
  revert w. induction ops as [|o ops IH]; intros w; [done|]. simpl.
  destruct (call cs o w) as [r w1]. specialize (IH w1).
  destruct (calls cs ops w1) as [rs w2]. simpl in *. by rewrite IH.
Qed.

Lemma calls_unavailable cs ops type w :
  available cs type = false →
  window type (calls cs ops w).2 = window type w
  ∧ ∀ i o r, ops !! i = Some o → scope o = type →
             (calls cs ops w).1 !! i = Some r → completes r = true.
Proof.
  intros Hav. revert w. induction ops as [|o ops IH]; intros w; [done|]. simpl.
  destruct (call_unavailable cs o type w Hav) as [Hw Hr].
  destruct (call cs o w) as [r w1]. destruct (IH w1) as [Hw' Hrs].
  destruct (calls cs ops w1) as [rs w2]. simpl in *. split; [congruence|].
  intros [|i] o' r'; simpl.
  - intros [= <-] Hsc [= <-]. auto.
  - apply Hrs.
Qed.

(** C1, as amended.  The script probes each scope once, when it is loaded
    and has made its fallback, and the probe never throws; the adapter
    keeps the two answers, and each
    call is routed by the answer for its scope.  Whatever the sequence of
    calls and whatever the browser's object would do now, a call of a scope
    marked unavailable completes without throwing on the fallback, and the
    browser's object of that scope is left untouched: there is no second
    probe.  A call of a scope marked available is the browser's own method. *)
Theorem adapter_routing_is_fixed_at_load (w0 : World H) (cs : CartStorage)
    (ops : list Op) (w : World H) :
  (∃ s l w1 w2,
      isStorageAvailable sessionStorage_t (new_fallback w0).2 = (Normal s, w1)
      ∧ isStorageAvailable localStorage_t w1 = (Normal l, w2)
      ∧ load_cartStorage w0 = (Normal {| useSession := s; useLocal := l |}, w2))
  ∧ (∀ o, call cs o = if available cs (scope o) then host_call o
                      else fallback_call o)
  ∧ length (calls cs ops w).1 = length ops
  ∧ ∀ type, available cs type = false →
      window type (calls cs ops w).2 = window type w
      ∧ ∀ i o r, ops !! i = Some o → scope o = type →
                 (calls cs ops w).1 !! i = Some r → completes r = true.
Proof.
  split; [apply load_cartStorage_probes|].
  split; [apply call_routed|].
  split; [apply calls_length|].
  intros type. apply calls_unavailable.
Qed.

End StorageAdapterFacts.

(** ** Carts as objects *)

Section CartObject.
Implicit Types (o : Cart) (k : string) (item : CartItem).

Lemma own_None o k : own o k = None ↔ k ∉ keys o.
Proof.
  induction o as [|[k' item'] o IH]; simpl.
  - split; [intros _; apply not_elem_of_nil | done].
  - rewrite not_elem_of_cons. destruct (String.eqb_spec k k') as [->|Hne].
    + split; [done | intros [? _]; done].
    + rewrite IH. tauto.
Qed.

Lemma own_elem_of o k item : own o k = Some item → (k, item) ∈ o.
Proof.
  induction o as [|[k' item'] o IH]; simpl; [done|].
  destruct (String.eqb_spec k k') as [->|Hne].
  - intros [= ->]. apply elem_of_cons; auto.
  - intros Ho. apply elem_of_cons; auto.
Qed.

Lemma keys_increment k o : keys (increment k o) = keys o.
Proof.
  induction o as [|[k' item'] o IH]; simpl; [done|].
  destruct (String.eqb k k'); simpl; [done | by rewrite IH].
Qed.

Lemma own_increment k o k' :
  own (increment k o) k' =
  if String.eqb k' k then one_more <$> own o k else own o k'.
Proof.
  induction o as [|[k0 item0] o IH]; simpl.
  - by destruct (String.eqb k' k).
  - destruct (String.eqb_spec k k0) as [->|Hne]; simpl.
    + by destruct (String.eqb_spec k' k0).
    + rewrite IH. destruct (String.eqb_spec k' k0) as [->|Hne'];
        destruct (String.eqb_spec k0 k) as [->|?]; done.
Qed.

Lemma array_index_inj k k' i :
  array_index k = Some i → array_index k' = Some i → k = k'.
Proof.
  unfold array_index. intros Hk Hk'.
  destruct (decimal k 0) as [n|]; [|done].
  destruct (decimal k' 0) as [n'|]; [|done].
  destruct (String.eqb_spec (pretty n) k) as [<-|]; [|done].
  destruct (String.eqb_spec (pretty n') k') as [<-|]; [|done].
  destruct (n <? 2 ^ 32 - 1)%N, (n' <? 2 ^ 32 - 1)%N; simpl in *; congruence.
Qed.

Lemma forallb_keys_add_index (P : string → bool) i k item o :
  forallb P (keys (add_index i k item o)) = P k && forallb P (keys o).
Proof.
  induction o as [|[k' item'] o IH]; simpl; [done|].
  destruct (array_index k') as [j|]; [destruct (j <? i)%N|]; simpl; try done.
  rewrite IH. by destruct (P k), (P k').
Qed.

Lemma is_object_keys_snoc ks k :
  is_object_keys (ks ++ [k]) =
  is_object_keys ks && forallb (fun k' => key_before k' k) ks.
Proof.
  induction ks as [|k0 ks IH]; simpl; [done|].
  rewrite forallb_app, IH. simpl.
  destruct (forallb (key_before k0) ks), (key_before k0 k), (is_object_keys ks);
    simpl; try done.
Qed.

Lemma key_before_absent o k :
  array_index k = None → k ∉ keys o →
  forallb (fun k' => key_before k' k) (keys o) = true.
Proof.
  intros Hk Hnot. apply forallb_forall. intros k' Hin.
  unfold key_before. rewrite Hk. destruct (array_index k'); [done|].
  apply negb_true_iff, String.eqb_neq. intros ->.
  apply Hnot, list_elem_of_In, Hin.
Qed.

Lemma is_object_add_index i k item o :
  array_index k = Some i → k ∉ keys o →
  is_object o = true → is_object (add_index i k item o) = true.
Proof.
  intros Hk. unfold is_object.
  induction o as [|[k' item'] o IH]; simpl; [done|].
  rewrite not_elem_of_cons. intros [Hne Hnot].
  rewrite andb_true_iff. intros [Hall Hobj].
  assert (∀ k'', In k'' (keys o) → key_before k' k'' = true) as Hlater
    by (by apply forallb_forall).
  destruct (array_index k') as [j|] eqn:Hk'.
  - destruct (j <? i)%N eqn:Hji; simpl.
    + rewrite forallb_keys_add_index, Hall, IH by done.
      unfold key_before. by rewrite Hk', Hk, Hji.
    + rewrite Hall, Hobj, !andb_true_r.
      assert (i < j)%N as Hij.
      { apply N.ltb_ge in Hji. destruct (decide (i = j)) as [->|]; [|lia].
        destruct Hne. eapply array_index_inj; eauto. }
      apply andb_true_iff. split.
      * unfold key_before. rewrite Hk, Hk'. by apply N.ltb_lt.
      * apply forallb_forall. intros k'' Hin. specialize (Hlater k'' Hin).
        unfold key_before in *. rewrite Hk' in Hlater. rewrite Hk.
        destruct (array_index k'') as [j''|]; [|done].
        apply N.ltb_lt in Hlater. apply N.ltb_lt. lia.
  - simpl. rewrite Hall, Hobj, !andb_true_r.
    apply andb_true_iff. split.
    + unfold key_before. by rewrite Hk, Hk'.
    + apply forallb_forall. intros k'' Hin. specialize (Hlater k'' Hin).
      unfold key_before in *. rewrite Hk' in Hlater. rewrite Hk.
      by destruct (array_index k'').
Qed.

(** A new property keeps the object an object. *)
Lemma is_object_add_property k item o :
  own o k = None → is_object o = true → is_object (add_property k item o) = true.
Proof.
  rewrite own_None. intros Hnot Hobj. unfold add_property.
  destruct (array_index k) as [i|] eqn:Hk.
  - by apply is_object_add_index.
  - unfold is_object, keys. rewrite map_app. simpl.
    rewrite is_object_keys_snoc. apply andb_true_iff. split; [done|].
    by apply key_before_absent.
Qed.

Lemma is_object_increment k o : is_object (increment k o) = is_object o.
Proof. unfold is_object. by rewrite keys_increment. Qed.

Lemma own_add_index i k item o k' :
  own o k = None →
  own (add_index i k item o) k' = if String.eqb k' k then Some item else own o k'.
Proof.
  induction o as [|[k0 item0] o IH]; simpl; [done|].
  destruct (String.eqb_spec k k0) as [->|Hne]; [done|]. intros Ho.
  destruct (array_index k0) as [j|]; [destruct (j <? i)%N|]; simpl; try done.
  rewrite IH by done.
  destruct (String.eqb_spec k' k0) as [->|]; [|done].
  by destruct (String.eqb_spec k0 k).
Qed.

Lemma own_app o k item k' :
  own (o ++ [(k, item)])%list k' =
  match own o k' with
  | Some item' => Some item'
  | None => if String.eqb k' k then Some item else None
  end.
Proof.
  induction o as [|[k0 item0] o IH]; simpl; [done|].
  by destruct (String.eqb k' k0).
Qed.

Lemma own_add_property k item o k' :
  own o k = None →
  own (add_property k item o) k' = if String.eqb k' k then Some item else own o k'.
Proof.
  intros Ho. unfold add_property. destruct (array_index k) as [i|].
  - by apply own_add_index.
  - rewrite own_app. destruct (String.eqb_spec k' k) as [->|].
    + by rewrite Ho.
    + by destruct (own o k').
Qed.

(** What [JSON] does to a cart. *)
Lemma json_number_idem x y : json_number x = Some y → json_number y = Some y.
Proof.
  unfold json_number. destruct (is_nan x || is_infinity x) eqn:Hx; [done|].
  destruct (is_zero x) eqn:Hz; intros [= <-]; [reflexivity|].
  by rewrite Hx, Hz.
Qed.

Lemma json_item_idem item : json_item (json_item item) = json_item item.
Proof.
  unfold json_item. simpl. f_equal.
  destruct (price item) as [x|]; [|done].
  destruct (json_number x) as [y|] eqn:Hx; [|done].
  by apply json_number_idem in Hx.
Qed.

Lemma json_cart_idem o : json_cart (json_cart o) = json_cart o.
Proof.
  unfold json_cart. rewrite map_map. apply map_ext.
  intros [k item]. simpl. by rewrite json_item_idem.
Qed.

Lemma keys_json_cart o : keys (json_cart o) = keys o.
Proof. unfold keys, json_cart. rewrite map_map. by apply map_ext. Qed.

Lemma is_object_json_cart o : is_object (json_cart o) = is_object o.
Proof. unfold is_object. by rewrite keys_json_cart. Qed.

Lemma own_json_cart o k : own (json_cart o) k = json_item <$> own o k.
Proof.
  induction o as [|[k' item'] o IH]; simpl; [done|].
  by destruct (String.eqb k k').
Qed.

Lemma json_cart_increment k o :
  json_cart (increment k o) = increment k (json_cart o).
Proof.
  induction o as [|[k' item'] o IH]; simpl; [done|].
  destruct (String.eqb k k'); simpl; [done | by rewrite IH].
Qed.

Lemma json_cart_add_index i k item o :
  json_cart (add_index i k item o) = add_index i k (json_item item) (json_cart o).
Proof.
  induction o as [|[k' item'] o IH]; simpl; [done|].
  destruct (array_index k') as [j|]; [destruct (j <? i)%N|]; simpl; try done.
  by rewrite IH.
Qed.

Lemma json_cart_add_property k item o :
  json_cart (add_property k item o) = add_property k (json_item item) (json_cart o).
Proof.
  unfold add_property. destruct (array_index k) as [i|].
  - apply json_cart_add_index.
  - unfold json_cart. by rewrite map_app.
Qed.

(** In an object, each key gives its own entry. *)
Lemma own_of_entry o :
  is_object o = true → Forall (fun p => own o p.1 = Some p.2) o.
Proof.
  unfold is_object. induction o as [|[k item] o IH]; simpl; [constructor|].
  rewrite andb_true_iff. intros [Hall Hobj]. constructor.
  - simpl. by rewrite String.eqb_refl.
  - specialize (IH Hobj). rewrite Forall_forall in IH |- *.
    intros [k' item'] Hin. simpl.
    destruct (String.eqb_spec k' k) as [->|]; [|by apply (IH (k', item'))].
    exfalso. rewrite forallb_forall in Hall.
    assert (In k (keys o)) as Hk
      by (apply list_elem_of_In, list_elem_of_fmap; exists (k, item'); auto).
    specialize (Hall k Hk). unfold key_before in Hall.
    destruct (array_index k) as [i|].
    + apply N.ltb_lt in Hall. lia.
    + by rewrite String.eqb_refl in Hall.
Qed.

End CartObject.

(** ** The adapter over storage that works *)

Section AdapterOverReliable.
Context `{R : Runtime} {H : Type} `{!StorageArea H} `{!Reliable H}.
Variable cs : CartStorage.
Implicit Types (w : World H) (k : string) (v : text).

Lemma getSessionItem_returns k w :
  ready cs sessionStorage_t w →
  getSessionItem cs k w = (Normal (session_items cs w !! k), w).
Proof.
  unfold ready, getSessionItem, session_items, on_storage. simpl.
  destruct (useSession cs); [|done]. intros [h Hh]; [done|].
  rewrite Hh, getItem_returns. by destruct w; simpl in *; subst.
Qed.

Lemma getLocalItem_returns k w :
  ready cs localStorage_t w →
  getLocalItem cs k w = (Normal (local_items cs w !! k), w).
Proof.
  unfold ready, getLocalItem, local_items, on_storage. simpl.
  destruct (useLocal cs); [|done]. intros [h Hh]; [done|].
  rewrite Hh, getItem_returns. by destruct w; simpl in *; subst.
Qed.

Lemma setSessionItem_returns k v w :
  ready cs sessionStorage_t w → k ≠ "__proto__" →
  ∃ w', setSessionItem cs k v w = (Normal tt, w')
        ∧ session_items cs w' = <[k := v]> (session_items cs w)
        ∧ local_items cs w' = local_items cs w
        ∧ alerts w' = alerts w
        ∧ ∀ type, ready cs type w → ready cs type w'.
Proof.
  unfold ready, setSessionItem, session_items, local_items, on_storage, sessionSet.
  simpl. intros Hr Hk. destruct (useSession cs).
  - destruct Hr as [h Hh]; [done|]. rewrite Hh.
    pose proof (setItem_returns k v h) as Hret.
    pose proof (setItem_items k v h) as Hit.
    destruct (setItem k v h) as [r h']. simpl in *. subst r.
    eexists. split; [done|]. simpl. repeat split; try done.
    intros [] Hw; simpl; eauto.
  - eexists. split; [done|]. simpl. unfold assign. rewrite decide_False by done.
    repeat split; try done.
Qed.

Lemma removeSessionItem_returns k w :
  ready cs sessionStorage_t w →
  ∃ w', removeSessionItem cs k w = (Normal tt, w')
        ∧ session_items cs w' = delete k (session_items cs w)
        ∧ local_items cs w' = local_items cs w
        ∧ alerts w' = alerts w
        ∧ ∀ type, ready cs type w → ready cs type w'.
Proof.
  unfold ready, removeSessionItem, session_items, local_items, on_storage,
    sessionRemove.
  simpl. intros Hr. destruct (useSession cs).
  - destruct Hr as [h Hh]; [done|]. rewrite Hh.
    pose proof (removeItem_returns k h) as Hret.
    pose proof (removeItem_items k h) as Hit.
    destruct (removeItem k h) as [r h']. simpl in *. subst r.
    eexists. split; [done|]. simpl. repeat split; try done.
    intros [] Hw; simpl; eauto.
  - eexists. split; [done|]. simpl. repeat split; try done.
Qed.

Lemma setLocalItem_returns k v w :
  ready cs localStorage_t w → k ≠ "__proto__" →
  ∃ w', setLocalItem cs k v w = (Normal tt, w')
        ∧ local_items cs w' = <[k := v]> (local_items cs w)
        ∧ session_items cs w' = session_items cs w
        ∧ alerts w' = alerts w
        ∧ ∀ type, ready cs type w → ready cs type w'.
Proof.
  unfold ready, setLocalItem, session_items, local_items, on_storage, localSet.
  simpl. intros Hr Hk. destruct (useLocal cs).
  - destruct Hr as [h Hh]; [done|]. rewrite Hh.
    pose proof (setItem_returns k v h) as Hret.
    pose proof (setItem_items k v h) as Hit.
    destruct (setItem k v h) as [r h']. simpl in *. subst r.
    eexists. split; [done|]. simpl. repeat split; try done.
    intros [] Hw; simpl; eauto.
  - eexists. split; [done|]. simpl. unfold assign. rewrite decide_False by done.
    repeat split; try done.
Qed.

Lemma showCustomAlert_returns message w :
  ∃ w', showCustomAlert message w = (Normal tt, w')
        ∧ session_items cs w' = session_items cs w
        ∧ local_items cs w' = local_items cs w
        ∧ alerts w' = (alerts w ++ [message])%list
        ∧ ∀ type, ready cs type w → ready cs type w'.
Proof.
  eexists. split; [reflexivity|]. repeat split; done.
Qed.

(** On storage that works no call of the adapter throws, and the adapter
    goes on fitting the page. *)
Lemma on_storage_completes {A} type (m : M H A) w :
  is_Some (window type w) → (∀ h, completes (m h).1 = true) →
  completes (on_storage type m w).1 = true
  ∧ ∀ type', ready cs type' w → ready cs type' (on_storage type m w).2.
Proof.
  intros [h Hh] Hm. unfold on_storage, ready. rewrite Hh.
  specialize (Hm h). destruct (m h) as [r h']. simpl in *. split; [done|].
  intros type' Hr Hav. specialize (Hr Hav).
  destruct type, type'; simpl in *; eauto.
Qed.

Lemma call_completes o w :
  fits cs w → completes (call cs o w).1 = true ∧ fits cs (call cs o w).2.
Proof.
  intros Hfits. rewrite call_routed.
  destruct (available cs (scope o)) eqn:Hav.
  - assert (is_Some (window (scope o) w)) as Hw by (by apply Hfits).
    assert (∀ A (m : M H A),
              (∀ h, completes (m h).1 = true) →
              (∀ B (k : A → B),
                 completes (bind (on_storage (scope o) m)
                              (fun a => ret (k a)) w).1 = true
                 ∧ fits cs (bind (on_storage (scope o) m)
                              (fun a => ret (k a)) w).2)) as Hon.
    { intros A m Hm B k.
      destruct (on_storage_completes (scope o) m w Hw Hm) as [Hc Hr].
      unfold bind. destruct (on_storage (scope o) m w) as [[a|e] w'];
        simpl in *; [|done]. split; [done|]. intros type'. apply Hr, Hfits. }
    destruct o; simpl; unfold undefined, value; apply Hon; intros h.
    + by rewrite setItem_returns.
    + by rewrite getItem_returns.
    + by rewrite removeItem_returns.
    + by rewrite clearItems_returns.
    + by rewrite setItem_returns.
    + by rewrite getItem_returns.
    + by rewrite removeItem_returns.
  - destruct (fallback_call_completes o w) as (r & w' & -> & Hs & Hl & _).
    split; [done|]. intros [] Hav'; simpl; [rewrite Hs | rewrite Hl];
      by apply (Hfits _ Hav').
Qed.

(** With storage objects that work, whatever the probe found: no call of a
    sequence throws. *)
Theorem adapter_calls_complete_on_reliable_storage (ops : list Op) w :
  fits cs w →
  Forall (fun r => completes r = true) (calls cs ops w).1
  ∧ fits cs (calls cs ops w).2.
Proof.
  revert w. induction ops as [|o ops IH]; intros w Hfits; simpl.
  - by split; [constructor|].
  - destruct (call_completes o w Hfits) as [Hc Hfits1].
    destruct (call cs o w) as [r w1]. simpl in *.
    destruct (IH w1 Hfits1) as [Hcs Hfits2].
    destruct (calls cs ops w1) as [rs w2]. simpl in *.
    split; [by constructor | done].
Qed.

(** Reading the cart is reading what the session scope holds. *)
Lemma getCartFromSession_stored w :
  ready cs sessionStorage_t w →
  getCartFromSession cs w = (stored_cart (session_items cs w), w).
Proof.
  intros Hr. unfold getCartFromSession, bind, stored_cart.
  rewrite getSessionItem_returns by done.
  destruct (session_items cs w !! "cartItems") as [t|]; [|done].
  by destruct (truthy t).
Qed.

Lemma getCartFromSession_ready w w' cartItems :
  getCartFromSession cs w = (Normal cartItems, w') → ready cs sessionStorage_t w.
Proof.
  unfold getCartFromSession, bind, getSessionItem, on_storage, ready. simpl.
  destruct (useSession cs); [|done].
  destruct (sessionStorage w); [eauto | done].
Qed.

Lemma holds_cart_stored w cartItems :
  holds_cart cs w cartItems ↔
  ready cs sessionStorage_t w
  ∧ stored_cart (session_items cs w) = Normal cartItems
  ∧ is_object cartItems = true
  ∧ json_cart cartItems = cartItems.
Proof.
  unfold holds_cart. split.
  - intros (Hget & Hobj & Hjson).
    pose proof (getCartFromSession_ready _ _ _ Hget) as Hr.
    rewrite getCartFromSession_stored in Hget by done.
    split; [done|]. split; [congruence | done].
  - intros (Hr & Hst & Hobj & Hjson).
    rewrite getCartFromSession_stored, Hst by done. done.
Qed.

(** Saving an object, then reading: the object as [JSON] writes it. *)
Lemma saveCartToSession_returns cartItems w :
  ready cs sessionStorage_t w → is_object cartItems = true →
  ∃ w', saveCartToSession cs cartItems w = (Normal tt, w')
        ∧ holds_cart cs w' (json_cart cartItems)
        ∧ session_items cs w' =
            <["cartItems" := JSON_stringify_cart cartItems]> (session_items cs w)
        ∧ local_items cs w' = local_items cs w
        ∧ alerts w' = alerts w.
Proof.
  intros Hr Hobj. unfold saveCartToSession.
  destruct (setSessionItem_returns "cartItems" (JSON_stringify_cart cartItems)
              w Hr ltac:(done)) as (w' & -> & Hs & Hl & Ha & Hr').
  exists w'. split; [done|]. split; [|done].
  apply holds_cart_stored. split; [by apply Hr'|].
  unfold stored_cart. rewrite Hs, lookup_insert_eq, truthy_cart.
  rewrite parse_stringify_cart by done.
  by rewrite is_object_json_cart, json_cart_idem.
Qed.

(** An alert changes nothing of what the scopes hold. *)
Lemma showCustomAlert_holds message w cartItems :
  holds_cart cs w cartItems →
  ∃ w', showCustomAlert message w = (Normal tt, w')
        ∧ holds_cart cs w' cartItems
        ∧ session_items cs w' = session_items cs w
        ∧ local_items cs w' = local_items cs w
        ∧ alerts w' = (alerts w ++ [message])%list.
Proof.
  intros (Hr & Hst & Hobj & Hjson)%holds_cart_stored.
  destruct (showCustomAlert_returns message w) as (w' & Hrun & Hs & Hl & Ha & Hr').
  exists w'. split; [done|]. split; [|done].
  apply holds_cart_stored. rewrite Hs. auto.
Qed.

End AdapterOverReliable.

(** ** The cart buttons *)

Section CartFacts.
Context `{R : Runtime} {H : Type} `{!StorageArea H} `{!Reliable H}.
Variable cs : CartStorage.
Implicit Types (w : World H) (cartItems : Cart) (itemId itemName : string).

Lemma is_object_add_item cartItems itemId itemName itemPrice :
  is_object cartItems = true →
  is_object (add_item cartItems itemId itemName itemPrice) = true.
Proof.
  intros Hobj. unfold add_item, get.
  destruct (own cartItems itemId) eqn:Ho.
  - by rewrite is_object_increment.
  - destruct (inherited itemId); [done | by apply is_object_add_property].
Qed.

(** The click on an add-to-cart button: the cart read, changed by
    [add_item] and saved is the cart the page holds afterwards. *)
Lemma addToCart_click_returns w cartItems itemId itemName itemPrice :
  holds_cart cs w cartItems →
  ∃ w', addToCart_click cs itemId itemName itemPrice w = (Normal tt, w')
        ∧ holds_cart cs w' (json_cart (add_item cartItems itemId itemName itemPrice))
        ∧ session_items cs w' =
            <["cartItems" :=
                JSON_stringify_cart (add_item cartItems itemId itemName itemPrice)]>
              (session_items cs w)
        ∧ local_items cs w' = local_items cs w
        ∧ alerts w' = (alerts w ++ ["Item added to cart!"])%list.
Proof.
  intros Hholds. pose proof Hholds as (Hget & Hobj & Hjson).
  pose proof (getCartFromSession_ready cs _ _ _ Hget) as Hr.
  destruct (saveCartToSession_returns cs
              (add_item cartItems itemId itemName itemPrice) w Hr
              (is_object_add_item _ _ _ _ Hobj))
    as (w1 & Hsave & Hholds1 & Hs1 & Hl1 & Ha1).
  destruct (showCustomAlert_holds cs "Item added to cart!" w1 _ Hholds1)
    as (w2 & Hshow & Hholds2 & Hs2 & Hl2 & Ha2).
  exists w2. unfold addToCart_click, bind. rewrite Hget, Hsave, Hshow.
  split; [done|]. split; [done|]. rewrite Hs2, Hl2, Ha2. by rewrite Hs1, Hl1, Ha1.
Qed.

(** [itemKeys.map] with the total it accumulates, over the entries. *)
Lemma view_items cartItems (l : Cart) total strings :
  Forall (fun p => own cartItems p.1 = Some p.2) l →
  fold_left (view_item cartItems) (keys l) (total, strings) =
  (fold_left (fun total p => (total + item_total p.2)%float) l total,
   (strings ++ map (fun p => item_line p.2) l)%list).
Proof.
  intros Hl. revert total strings.
  induction Hl as [|[k item] l Hk _ IH]; intros total strings; simpl.
  - by rewrite app_nil_r.
  - simpl in Hk. unfold view_item at 2. rewrite Hk. simpl.
    rewrite IH. by rewrite <- app_assoc.
Qed.

(** [itemKeys.forEach] with the count it accumulates, over the entries. *)
Lemma count_items cartItems (l : Cart) totalItems :
  Forall (fun p => own cartItems p.1 = Some p.2) l →
  fold_left (count_item cartItems) (keys l) totalItems =
  fold_left (fun total p => Number_add total (quantity p.2)) l totalItems.
Proof.
  intros Hl. revert totalItems.
  induction Hl as [|[k item] l Hk _ IH]; intros totalItems; simpl; [done|].
  simpl in Hk. unfold count_item at 2. by rewrite Hk, IH.
Qed.

(** After the entry is removed the page holds the empty cart. *)
Lemma clearCartFromSession_returns w cartItems :
  holds_cart cs w cartItems →
  ∃ w', clearCartFromSession cs w = (Normal tt, w')
        ∧ holds_cart cs w' []
        ∧ session_items cs w' = delete "cartItems" (session_items cs w)
        ∧ local_items cs w' = local_items cs w
        ∧ alerts w' = alerts w.
Proof.
  intros (Hr & _)%holds_cart_stored.
  destruct (removeSessionItem_returns cs "cartItems" w Hr)
    as (w' & Hrun & Hs & Hl & Ha & Hr').
  exists w'. split; [done|]. split; [|done].
  apply holds_cart_stored. split; [by apply Hr'|].
  unfold stored_cart. by rewrite Hs, lookup_delete_eq.
Qed.

(** The view button shows one message, made from the cart the page holds. *)
Lemma viewCart_click_message w cartItems :
  holds_cart cs w cartItems →
  viewCart_click cs w =
    showCustomAlert
      (match cartItems with
       | [] => "Your cart is empty"
       | _ :: _ => cart_message cartItems
       end) w.
Proof.
  intros (Hget & Hobj & Hjson). unfold viewCart_click, bind. rewrite Hget.
  destruct cartItems as [|p cartItems']; [done|].
  set (cartItems := p :: cartItems') in *.
  change (length (keys cartItems) =? 0)%nat with false. cbv iota.
  by rewrite (view_items cartItems cartItems 0%float [] (own_of_entry _ Hobj)).
Qed.

(** The clear button, on the empty cart and on a cart with entries. *)
Lemma clearCart_click_empty w :
  holds_cart cs w [] →
  clearCart_click cs w = showCustomAlert "No items to clear" w.
Proof. intros (Hget & _). unfold clearCart_click, bind. by rewrite Hget. Qed.

Lemma clearCart_click_entries w cartItems :
  holds_cart cs w cartItems → cartItems ≠ [] →
  ∃ w',
    clearCart_click cs w = (Normal tt, w')
    ∧ alerts w' = (alerts w ++ ["Cart has been cleared!"])%list
    ∧ session_items cs w' = delete "cartItems" (session_items cs w)
    ∧ local_items cs w' = local_items cs w
    ∧ holds_cart cs w' [].
Proof.
  intros Hholds Hne. pose proof Hholds as (Hget & _).
  destruct cartItems as [|p cartItems']; [done|].
  set (cartItems := p :: cartItems') in *.
  destruct (clearCartFromSession_returns w _ Hholds)
    as (w1 & Hclear & Hholds1 & Hs1 & Hl1 & Ha1).
  destruct (showCustomAlert_holds cs "Cart has been cleared!" w1 _ Hholds1)
    as (w2 & Hshow & Hholds2 & Hs2 & Hl2 & Ha2).
  exists w2. unfold clearCart_click, bind. rewrite Hget.
  change (length (keys cartItems) =? 0)%nat with false. cbv beta iota.
  rewrite Hclear, Hshow, Hs2, Hl2, Ha2, Hs1, Hl1, Ha1. done.
Qed.

(** The order button, on the empty cart and on a cart with entries. *)
Lemma processOrder_click_empty w :
  holds_cart cs w [] →
  processOrder_click cs w = showCustomAlert "No items in cart" w.
Proof. intros (Hget & _). unfold processOrder_click, bind. by rewrite Hget. Qed.

Lemma processOrder_click_entries w cartItems :
  holds_cart cs w cartItems → cartItems ≠ [] →
  ∃ w',
    processOrder_click cs w = (Normal tt, w')
    ∧ alerts w' =
        (alerts w ++ [("Order processed successfully! "
                         ++ String_of_total (items_ordered cartItems)
                         ++ " item(s) ordered.")%string])%list
    ∧ session_items cs w' = delete "cartItems" (session_items cs w)
    ∧ local_items cs w' = local_items cs w
    ∧ holds_cart cs w' [].
Proof.
  intros Hholds Hne. pose proof Hholds as (Hget & Hobj & _).
  destruct cartItems as [|p cartItems']; [done|].
  set (cartItems := p :: cartItems') in *.
  destruct (showCustomAlert_holds cs
              ("Order processed successfully! "
                 ++ String_of_total (items_ordered cartItems)
                 ++ " item(s) ordered.") w _ Hholds)
    as (w1 & Hshow & Hholds1 & Hs1 & Hl1 & Ha1).
  destruct (clearCartFromSession_returns w1 _ Hholds1)
    as (w2 & Hclear & Hholds2 & Hs2 & Hl2 & Ha2).
  exists w2. unfold processOrder_click, bind. rewrite Hget.
  change (0 <? length (keys cartItems))%nat with true. cbv beta iota.
  rewrite (count_items cartItems cartItems (Finite 0) (own_of_entry _ Hobj)).
  fold (items_ordered cartItems).
  rewrite Hshow, Hclear, Hs2, Hl2, Ha2, Hs1, Hl1, Ha1. done.
Qed.



(** C4, as amended.  On a cart with entries the order button shows the
    confirmation with the count of the items, then removes the cart from the
    session scope, as the clear button does: the page holds the empty cart
    afterwards.  The count is the quantities of all items added up as the
    doubles add, in the order of the keys; it is the sum of the quantities,
    written with all its digits, when this sum is at most [2^53].  On the
    empty cart the button shows that there is nothing to order and changes
    nothing else. *)
Theorem processOrder_counts_then_clears w cartItems :
  holds_cart cs w cartItems →
  (cartItems = [] →
     processOrder_click cs w = showCustomAlert "No items in cart" w)
  ∧ (cartItems ≠ [] →
     ∃ w' w'',
       processOrder_click cs w = (Normal tt, w')
       ∧ alerts w' =
           (alerts w ++ [("Order processed successfully! "
                            ++ String_of_total (items_ordered cartItems)
                            ++ " item(s) ordered.")%string])%list
       ∧ ((total_quantity cartItems ≤ 2 ^ 53)%N →
          alerts w' =
            (alerts w ++ [("Order processed successfully! "
                             ++ pretty (total_quantity cartItems)
                             ++ " item(s) ordered.")%string])%list)
       ∧ session_items cs w' = delete "cartItems" (session_items cs w)
       ∧ local_items cs w' = local_items cs w
       ∧ holds_cart cs w' []
       ∧ clearCart_click cs w = (Normal tt, w'')
       ∧ session_items cs w'' = session_items cs w').
Proof.
  intros Hholds. split.
  - intros ->. by apply processOrder_click_empty.
  - intros Hne.
    destruct (processOrder_click_entries w cartItems Hholds Hne)
      as (w' & Hrun & Ha & Hs & Hl & Hholds').
    destruct (clearCart_click_entries w cartItems Hholds Hne)
      as (w'' & Hrun' & _ & Hs' & _).
    exists w', w''. split_and!; try done; [|congruence].
    intros Hsum. rewrite Ha, items_ordered_safe by done. simpl.
    by rewrite String_of_count_safe.
Qed.

(** C5.  On the empty cart the clear button shows that there is nothing to
    clear and changes nothing else.  On a cart with entries it removes the
    entry of the cart from the session scope (the key is gone, not set to an
    empty object) and shows that the cart was cleared; the view button then
    shows the empty-cart message. *)
Theorem clearCart_removes_the_entry w cartItems :
  holds_cart cs w cartItems →
  (cartItems = [] →
     clearCart_click cs w = showCustomAlert "No items to clear" w)
  ∧ (cartItems ≠ [] →
     ∃ w',
       clearCart_click cs w = (Normal tt, w')
       ∧ alerts w' = (alerts w ++ ["Cart has been cleared!"])%list
       ∧ session_items cs w' = delete "cartItems" (session_items cs w)
       ∧ session_items cs w' !! "cartItems" = None
       ∧ local_items cs w' = local_items cs w
       ∧ holds_cart cs w' []
       ∧ viewCart_click cs w' = showCustomAlert "Your cart is empty" w').
Proof.
  intros Hholds. split.
  - intros ->. by apply clearCart_click_empty.
  - intros Hne.
    destruct (clearCart_click_entries w cartItems Hholds Hne)
      as (w' & Hrun & Ha & Hs & Hl & Hholds').
    exists w'. split_and!; try done.
    + by rewrite Hs, lookup_delete_eq.
    + by rewrite (viewCart_click_message w' [] Hholds').
Qed.

(** C10.  When the cart holds an item under [itemId], a click on an
    add-to-cart button of that id, whatever its name and price, keeps the
    name and the price of the stored item; only its quantity changes, to
    the double [quantity + 1], which is one more for a quantity below
    [2^53]; the entries of the other ids and the order of the keys are as
    before. *)
Theorem addToCart_repeat_keeps_name_and_price
    w cartItems itemId item itemName itemPrice :
  holds_cart cs w cartItems →
  own cartItems itemId = Some item →
  ∃ w' cartItems' item',
    addToCart_click cs itemId itemName itemPrice w = (Normal tt, w')
    ∧ holds_cart cs w' cartItems'
    ∧ own cartItems' itemId = Some item'
    ∧ name item' = name item
    ∧ price item' = price item
    ∧ quantity item' = round53 (quantity item + 1)
    ∧ ((quantity item < 2 ^ 53)%N → quantity item' = (quantity item + 1)%N)
    ∧ (∀ k, k ≠ itemId → own cartItems' k = own cartItems k)
    ∧ keys cartItems' = keys cartItems
    ∧ local_items cs w' = local_items cs w.
Proof.
  intros Hholds Hown. pose proof Hholds as (Hget & Hobj & Hjson).
  destruct (addToCart_click_returns w cartItems itemId itemName itemPrice Hholds)
    as (w' & Hrun & Hholds' & _ & Hl & _).
  assert (add_item cartItems itemId itemName itemPrice = increment itemId cartItems)
    as Hadd by (unfold add_item, get; by rewrite Hown).
  rewrite Hadd, json_cart_increment, Hjson in Hholds'.
  exists w', (increment itemId cartItems), (one_more item).
  split; [done|]. split; [done|]. split_and!; try done.
  - by rewrite own_increment, String.eqb_refl, Hown.
  - intros Hq. simpl. apply round53_safe. lia.
  - intros k Hk. rewrite own_increment.
    by destruct (String.eqb_spec k itemId).
  - apply keys_increment.
Qed.

End CartFacts.

(** ** Sequences of clicks *)

Section CartSequences.
Context `{R : Runtime} {H : Type} `{!StorageArea H} `{!Reliable H}.
Variable cs : CartStorage.
Implicit Types (w : World H) (cartItems : Cart) (itemId itemName : string).

Lemma counted_increment k cartItems :
  Forall counted cartItems → Forall counted (increment k cartItems).
Proof.
  induction 1 as [|[k' item] o Hp Ho IH]; simpl; [constructor|].
  destruct (String.eqb k k'); constructor; try done.
  unfold counted in *. simpl in *. apply round53_pos. lia.
Qed.

Lemma counted_add_index i k item cartItems :
  counted (k, item) → Forall counted cartItems →
  Forall counted (add_index i k item cartItems).
Proof.
  intros Hk. induction 1 as [|[k' item'] o Hp Ho IH]; simpl.
  - by repeat constructor.
  - destruct (array_index k') as [j|]; [destruct (j <? i)%N|];
      repeat constructor; done.
Qed.

Lemma counted_add_item cartItems itemId itemName itemPrice :
  Forall counted cartItems →
  Forall counted (add_item cartItems itemId itemName itemPrice).
Proof.
  intros Hc. unfold add_item. destruct (get cartItems itemId).
  - by apply counted_increment.
  - done.
  - unfold add_property. destruct (array_index itemId).
    + apply counted_add_index; [|done]. unfold counted. simpl. lia.
    + apply Forall_app. split; [done|]. repeat constructor.
      unfold counted. simpl. lia.
Qed.

Lemma counted_json_cart cartItems :
  Forall counted cartItems → Forall counted (json_cart cartItems).
Proof.
  intros Hc. unfold json_cart. apply List.Forall_map.
  eapply Forall_impl; [exact Hc|]. by intros [k item].
Qed.

(** Every button completes, and keeps a cart of counted items one. *)
Lemma click_counted b w cartItems :
  holds_cart cs w cartItems → Forall counted cartItems →
  ∃ w' cartItems',
    click cs b w = (Normal tt, w')
    ∧ holds_cart cs w' cartItems' ∧ Forall counted cartItems'.
Proof.
  intros Hholds Hc. destruct b as [itemId itemName itemPrice| | |]; simpl.
  - destruct (addToCart_click_returns cs w cartItems itemId itemName itemPrice
                Hholds) as (w' & Hrun & Hholds' & _).
    eexists _, _. split; [done|]. split; [done|].
    by apply counted_json_cart, counted_add_item.
  - rewrite (viewCart_click_message cs w cartItems Hholds).
    edestruct (showCustomAlert_holds cs) as (w' & -> & Hholds' & _); [done|].
    eauto.
  - destruct cartItems as [|p cartItems'].
    + rewrite (clearCart_click_empty cs w Hholds).
      edestruct (showCustomAlert_holds cs) as (w' & -> & Hholds' & _); [done|].
      eauto.
    + destruct (clearCart_click_entries cs w _ Hholds ltac:(done))
        as (w' & -> & _ & _ & _ & Hholds').
      exists w', []. auto.
  - destruct cartItems as [|p cartItems'].
    + rewrite (processOrder_click_empty cs w Hholds).
      edestruct (showCustomAlert_holds cs) as (w' & -> & Hholds' & _); [done|].
      eauto.
    + destruct (processOrder_click_entries cs w _ Hholds ltac:(done))
        as (w' & -> & _ & _ & _ & Hholds').
      exists w', []. auto.
Qed.

(** C9.  In every state the page reaches from the empty cart by clicks on
    the buttons (add, view, clear, order, in any number and order), the page
    holds a cart in which every item has a quantity of at least 1: no id is
    there with the quantity 0. *)
Theorem cart_quantities_at_least_one (bs : list button) w :
  holds_cart cs w [] →
  ∃ cartItems,
    holds_cart cs (clicks cs bs w) cartItems
    ∧ Forall (fun p => (1 ≤ quantity p.2)%N) cartItems
    ∧ ∀ itemId item, own cartItems itemId = Some item →
                     (1 ≤ quantity item)%N ∧ quantity item ≠ 0%N.
Proof.
  intros Hholds.
  assert (∃ cartItems, holds_cart cs (clicks cs bs w) cartItems
                       ∧ Forall counted cartItems) as (cartItems & Hh & Hc).
  { assert (Forall counted []) as Hc by constructor.
    revert Hholds Hc. generalize (@nil (string * CartItem)). revert w.
    induction bs as [|b bs IH]; intros w cartItems Hholds Hc; simpl; [eauto|].
    destruct (click_counted b w cartItems Hholds Hc) as (w' & c' & -> & Hh' & Hc').
    simpl. eauto. }
  exists cartItems. split; [done|]. split; [done|].
  intros itemId item Hown%own_elem_of.
  rewrite Forall_forall in Hc. specialize (Hc _ Hown).
  unfold counted in Hc. simpl in Hc. lia.
Qed.

(** The first click on a button whose id is no property of
    [Object.prototype] makes the entry of the id. *)
Lemma add_item_first itemId itemName itemPrice :
  inherited itemId = false →
  add_item [] itemId itemName itemPrice =
  [(itemId, {| name := itemName; price := Some itemPrice; quantity := 1 |})].
Proof.
  intros Hin. unfold add_item, get, add_property. simpl. rewrite Hin.
  by destruct (array_index itemId).
Qed.

Lemma add_item_again itemId item itemName itemPrice :
  add_item [(itemId, item)] itemId itemName itemPrice = [(itemId, one_more item)].
Proof. unfold add_item, get. simpl. by rewrite String.eqb_refl. Qed.

Lemma json_item_one_more item :
  json_item item = item → json_item (one_more item) = one_more item.
Proof.
  intros Heq. apply (f_equal price) in Heq. unfold json_item, one_more in *.
  simpl in *. by rewrite Heq.
Qed.

(* [+ 1] counts up to [2^53] and stays there *)
Lemma round53_counts (n : N) :
  round53 (N.min n (2 ^ 53) + 1) = N.min (n + 1) (2 ^ 53).
Proof.
  destruct (decide (n < 2 ^ 53)%N) as [Hlt|Hge].
  - rewrite N.min_l by lia. rewrite (N.min_l (n + 1)) by lia.
    apply round53_safe. lia.
  - rewrite !N.min_r by lia. apply round53_stalls.
Qed.

Lemma clicked_clicks (bs : list button) w : (clicked cs bs w).2 = clicks cs bs w.
Proof.
  revert w. induction bs as [|b bs IH]; intros w; simpl; [done|].
  destruct (click cs b w) as [r w1]. specialize (IH w1).
  destruct (clicked cs bs w1) as [rs w2]. done.
Qed.

Lemma addToCart_again_counts itemId (args : list (string * float)) :
  ∀ w item (n : N),
    quantity item = N.min n (2 ^ 53) →
    holds_cart cs w [(itemId, item)] →
    (clicked cs (map (fun a => AddToCart itemId a.1 a.2) args) w).1
    = repeat (Normal tt) (length args)
    ∧ holds_cart cs
        (clicks cs (map (fun a => AddToCart itemId a.1 a.2) args) w)
        [(itemId, {| name := name item; price := price item;
                     quantity := N.min (n + N.of_nat (length args)) (2 ^ 53) |})].
Proof.
  induction args as [|[itemName itemPrice] args IH]; intros w item n Hq Hholds.
  - simpl. rewrite N.add_0_r, <- Hq. by destruct item.
  - pose proof Hholds as (_ & _ & Hjson).
    destruct (addToCart_click_returns cs w _ itemId itemName itemPrice Hholds)
      as (w' & Hrun & Hholds' & _).
    rewrite add_item_again in Hholds'. simpl in Hjson, Hholds'.
    rewrite json_item_one_more in Hholds' by congruence.
    assert (quantity (one_more item) = N.min (n + 1) (2 ^ 53)) as Hq'.
    { simpl. rewrite Hq. apply round53_counts. }
    destruct (IH w' _ _ Hq' Hholds') as [Hrs IH'].
    simpl. rewrite Hrun. simpl.
    destruct (clicked cs _ w') as [rs w2]. simpl in *.
    split; [by rewrite Hrs|].
    replace (n + N.of_nat (S (length args)))%N
      with (n + 1 + N.of_nat (length args))%N by lia.
    exact IH'.
Qed.

(** The property of the specification for the ids that are no property of
    [Object.prototype]: [n >= 1] clicks on add-to-cart buttons of one such
    id, made on the empty cart, all complete, and the cart that is saved to
    the session scope has this id alone, with the name and the price of the
    first click and the quantity [n]: [n] as the doubles count it, which
    is [n] up to [2^53] and stays [2^53] from there. *)
Theorem addToCart_same_id_counts_clicks
    itemId itemName itemPrice (args : list (string * float)) w :
  inherited itemId = false →
  holds_cart cs w [] →
  (clicked cs (map (fun a => AddToCart itemId a.1 a.2)
                 ((itemName, itemPrice) :: args)) w).1
  = repeat (Normal tt) (length ((itemName, itemPrice) :: args))
  ∧ holds_cart cs
      (clicks cs (map (fun a => AddToCart itemId a.1 a.2)
                    ((itemName, itemPrice) :: args)) w)
      [(itemId, {| name := itemName; price := json_number itemPrice;
                   quantity :=
                     N.min (N.of_nat (length ((itemName, itemPrice) :: args)))
                       (2 ^ 53) |})].
Proof.
  intros Hin Hholds.
  destruct (addToCart_click_returns cs w _ itemId itemName itemPrice Hholds)
    as (w' & Hrun & Hholds' & _).
  rewrite add_item_first in Hholds' by done.
  simpl in Hholds'.
  destruct (addToCart_again_counts itemId args w'
              {| name := itemName; price := json_number itemPrice;
                 quantity := 1 |} 1%N eq_refl Hholds')
    as [Hrs Hall].
  assert (N.of_nat (length ((itemName, itemPrice) :: args))
          = (1 + N.of_nat (length args))%N) as -> by (simpl length; lia).
  simpl in Hall. simpl. rewrite Hrun. simpl.
  destruct (clicked cs _ w') as [rs w2]. simpl in *.
  split; [by rewrite Hrs | exact Hall].
Qed.

(** C2, where the code departs from it.  A click on an add-to-cart button
    whose id is the name of a property of [Object.prototype] ([toString],
    [constructor], [__proto__], ...) and is not in the cart completes, shows
    that the item was added and saves the cart, but the cart it saves is the
    cart as it was: no entry is inserted for the id. *)
Theorem addToCart_inherited_id_inserts_nothing
    w cartItems itemId itemName itemPrice :
  holds_cart cs w cartItems →
  own cartItems itemId = None →
  inherited itemId = true →
  ∃ w',
    addToCart_click cs itemId itemName itemPrice w = (Normal tt, w')
    ∧ alerts w' = (alerts w ++ ["Item added to cart!"])%list
    ∧ session_items cs w' !! "cartItems" = Some (JSON_stringify_cart cartItems)
    ∧ holds_cart cs w' cartItems
    ∧ own cartItems itemId = None.
Proof.
  intros Hholds Hown Hin. pose proof Hholds as (_ & _ & Hjson).
  destruct (addToCart_click_returns cs w _ itemId itemName itemPrice Hholds)
    as (w' & Hrun & Hholds' & Hs & _ & Ha).
  assert (add_item cartItems itemId itemName itemPrice = cartItems) as Hadd
    by (unfold add_item, get; by rewrite Hown, Hin).
  rewrite Hadd in *. rewrite Hjson in Hholds'.
  exists w'. split; [done|]. split; [done|]. split; [|done].
  by rewrite Hs, lookup_insert_eq.
Qed.

End CartSequences.

(** ** The forms *)

Section EmailShape.
Implicit Types (s l r p email : string).

Lemma includes_at_app l r : includes_at (l ++ "@" ++ r) = true.
Proof. induction l as [|c l IH]; simpl; [done|]. by destruct (Ascii.eqb c "@"). Qed.

Lemma split_at_cons s : ∃ p ps, split_at s = p :: ps.
Proof.
  induction s as [|c s (p & ps & IH)]; simpl; [eauto|].
  destruct (Ascii.eqb c "@"); [eauto|]. rewrite IH. eauto.
Qed.

(** No [@]: [split] gives the string itself, and only then one part. *)
Lemma split_at_without s : includes_at s = false → split_at s = [s].
Proof.
  induction s as [|c s IH]; simpl; [done|].
  destruct (Ascii.eqb c "@"); [done|]. intros Hno. by rewrite IH.
Qed.

Lemma split_at_one s p : split_at s = [p] → includes_at s = false ∧ p = s.
Proof.
  revert p. induction s as [|c s IH]; intros p; simpl.
  - by intros [= <-].
  - destruct (split_at_cons s) as (p' & ps & Hs). rewrite Hs.
    destruct (Ascii.eqb c "@"); [done|].
    intros [= <- ->]. destruct (IH p' Hs) as [Hno ->]. done.
Qed.

(** One [@]: [split] gives what is before it and what is after it, and only
    then two parts. *)
Lemma split_at_around l r :
  includes_at l = false → includes_at r = false →
  split_at (l ++ "@" ++ r) = [l; r].
Proof.
  intros Hl Hr. induction l as [|c l IH]; simpl in *.
  - by rewrite split_at_without.
  - destruct (Ascii.eqb c "@"); [done|]. by rewrite IH.
Qed.

Lemma split_at_two s l r :
  split_at s = [l; r] →
  s = l ++ "@" ++ r ∧ includes_at l = false ∧ includes_at r = false.
Proof.
  revert l. induction s as [|c s IH]; intros l; simpl; [done|].
  destruct (Ascii.eqb_spec c "@") as [->|Hc].
  - intros [= <- Hs]. apply split_at_one in Hs as [Hno ->]. done.
  - destruct (split_at_cons s) as (p' & ps & Hs). rewrite Hs.
    intros [= <- ->]. destruct (IH p' Hs) as (-> & Hl & Hr).
    simpl. by destruct (Ascii.eqb_spec c "@").
Qed.

Lemma is_empty_false s : is_empty s = false ↔ s ≠ "".
Proof. by destruct s. Qed.

(** The three checks on the email pass exactly on the strings with one [@]
    between two non-empty texts. *)
Lemma newsletter_check_accepts email :
  newsletter_check email = None ↔ one_at_between_texts email.
Proof.
  unfold newsletter_check, one_at_between_texts. split.
  - destruct (is_empty email); [done|].
    destruct (includes_at email); [|done]. simpl.
    destruct (split_at email) as [|l [|r [|]]] eqn:Hs; try done.
    destruct (is_empty l) eqn:Hl, (is_empty r) eqn:Hr; try done. intros _.
    apply split_at_two in Hs as (-> & Hnl & Hnr).
    exists l, r. by rewrite <- !is_empty_false.
  - intros (l & r & -> & Hl & Hr & Hnl & Hnr).
    rewrite includes_at_app, split_at_around by done.
    apply is_empty_false in Hl, Hr. rewrite Hl, Hr.
    by destruct l.
Qed.

Lemma feedback_email_check_accepts email :
  feedback_email_check email = None ↔ one_at_between_texts email.
Proof.
  rewrite <- newsletter_check_accepts.
  unfold feedback_email_check, newsletter_check.
  destruct (is_empty email); [done|].
  destruct (includes_at email); [|done]. simpl.
  by destruct (match split_at email with [part0; part1] => _ | _ => true end).
Qed.

(** C6.  The checks on the email accept a string exactly when it has one
    [@] with non-empty text on both sides: so in the newsletter form (lines
    128-142) and so in the feedback form (lines 289-303).  They reject [foo],
    [foo@] and [@bar], and accept [a@b].  The string checked is the value of
    the input after [trim()]. *)
Theorem email_checks_accept_one_at_between_texts :
  (∀ email, newsletter_check email = None ↔ one_at_between_texts email)
  ∧ (∀ email, feedback_email_check email = None ↔ one_at_between_texts email)
  ∧ (∀ email, newsletter_check email = None ↔ feedback_email_check email = None)
  ∧ is_Some (newsletter_check "foo") ∧ is_Some (feedback_email_check "foo")
  ∧ is_Some (newsletter_check "foo@") ∧ is_Some (feedback_email_check "foo@")
  ∧ is_Some (newsletter_check "@bar") ∧ is_Some (feedback_email_check "@bar")
  ∧ newsletter_check "a@b" = None ∧ feedback_email_check "a@b" = None.
Proof.
  split; [apply newsletter_check_accepts|].
  split; [apply feedback_email_check_accepts|].
  split.
  { intros email.
    by rewrite newsletter_check_accepts, feedback_email_check_accepts. }
  split_and!; by eauto.
Qed.

End EmailShape.

(** ** The feedback form *)

Section FeedbackChecks.

(** The checks of the handler are the rules, in the order of the source. *)
Lemma feedback_check_first_failing name email message :
  feedback_check name email message =
  rule_alert <$> first_failing source_order name email message.
Proof.
  unfold feedback_check, feedback_email_check, first_failing, source_order.
  simpl.
  destruct (is_empty name); [done|].
  destruct (is_empty email); [done|].
  destruct (includes_at email); [|done]. simpl.
  destruct (split_at email) as [|part0 [|part1 [|]]]; simpl; try done.
  - destruct (is_empty part0 || is_empty part1); simpl; [done|].
    by destruct (is_empty message).
Qed.

Lemma first_failing_fails order name email message r :
  first_failing order name email message = Some r →
  In r order ∧ passes name email message r = false.
Proof.
  unfold first_failing. intros [Hin Hr]%find_some.
  by apply negb_true_iff in Hr.
Qed.

Lemma first_failing_source_order name email message r0 :
  passes name email message r0 = false →
  ∃ r, first_failing source_order name email message = Some r.
Proof.
  intros Hr0. unfold first_failing.
  destruct (find _ source_order) as [r|] eqn:Hfind; [eauto|].
  pose proof (find_none _ _ Hfind r0) as Hnone. simpl in Hnone.
  rewrite Hr0 in Hnone. destruct r0; discriminate Hnone; auto 10.
Qed.

(** In an order with every presence check before every shape check, the
    fields [Bob], [foo] and a blank message fail at the presence of the
    message. *)
Lemma presence_first_on_blank_message order :
  presence_before_shape order = true → In MessagePresent order →
  first_failing order "Bob" "foo" "" = Some MessagePresent.
Proof.
  unfold first_failing. induction order as [|r order IH]; simpl; [done|].
  rewrite andb_true_iff. intros [Hr Horder] Hin.
  destruct r; simpl in *; try done.
  - destruct Hin as [|Hin]; [done|]. auto.
  - destruct Hin as [|Hin]; [done|]. auto.
  - destruct Hin as [|Hin]; [done|]. exfalso.
    rewrite forallb_forall in Hr. by specialize (Hr _ Hin).
  - destruct Hin as [|Hin]; [done|]. exfalso.
    rewrite forallb_forall in Hr. by specialize (Hr _ Hin).
Qed.

End FeedbackChecks.

Section FeedbackForm.
Context `{R : Runtime} {H : Type} `{!StorageArea H}.
Variable cs : CartStorage.
Implicit Types (w : World H) (form : FeedbackForm).

(** C7, as amended.  When at least one rule fails on the (trimmed) fields of
    the feedback form, the handler shows exactly one message, that of the
    first rule that fails in the order of the source (presence of the name,
    presence of the email, the [@] of the email, the shape of the email,
    presence of the message), and returns: the inputs keep their values and
    nothing that is stored changes, in the browser's storage or in the
    fallback. *)
Theorem feedback_invalid_shows_first_failing_rule form now w r0 :
  fails form r0 →
  ∃ r w',
    first_failing_of source_order form = Some r
    ∧ fails form r
    ∧ feedback_submit cs form now w = (Normal form, w')
    ∧ alerts w' = (alerts w ++ [rule_alert r])%list
    ∧ sessionStorage w' = sessionStorage w
    ∧ localStorage w' = localStorage w
    ∧ _session w' = _session w
    ∧ _local w' = _local w.
Proof.
  unfold fails, first_failing_of. intros Hr0.
  destruct (first_failing_source_order _ _ _ _ Hr0) as [r Hr].
  exists r. eexists. split; [done|].
  split; [by destruct (first_failing_fails _ _ _ _ _ Hr)|].
  unfold feedback_submit. rewrite feedback_check_first_failing, Hr. simpl.
  split; [reflexivity|]. done.
Qed.

End FeedbackForm.

Section CustomerProfile.
Context `{R : Runtime} {H : Type} `{!StorageArea H} `{!Reliable H}.
Variable cs : CartStorage.
Implicit Types (w : World H) (form : FeedbackForm).

(** An accepted submission: the record of its fields is what the durable
    scope holds afterwards under [customerData], whatever it held. *)
Lemma feedback_submit_saves form now w :
  ready cs localStorage_t w → accepted form →
  ∃ w',
    feedback_submit cs form now w = (Normal (message_cleared form), w')
    ∧ local_items cs w' =
        <["customerData" := JSON_stringify_customer (customer_of form now)]>
          (local_items cs w)
    ∧ session_items cs w' = session_items cs w
    ∧ alerts w' =
        (alerts w ++ [("Thank you for your message, " ++ trim (feedback_name form)
                         ++ "! We will get back to you soon.")%string])%list
    ∧ ready cs localStorage_t w'.
Proof.
  intros Hr Hacc. unfold accepted in Hacc.
  destruct (setLocalItem_returns cs "customerData"
              (JSON_stringify_customer (customer_of form now)) w Hr ltac:(done))
    as (w1 & Hsave & Hl1 & Hs1 & Ha1 & Hr1).
  destruct (showCustomAlert_returns cs
              ("Thank you for your message, " ++ trim (feedback_name form)
                 ++ "! We will get back to you soon.") w1)
    as (w2 & Hshow & Hs2 & Hl2 & Ha2 & Hr2).
  exists w2. unfold feedback_submit, saveCustomerToLocal, bind.
  rewrite Hacc, Hsave, Hshow, Hl2, Hs2, Ha2, Hl1, Hs1, Ha1.
  split_and!; auto.
Qed.

(** What [loadCustomerData] puts in the form is what was saved. *)
Lemma loadCustomerData_returns form data w :
  ready cs localStorage_t w →
  local_items cs w !! "customerData" = Some (JSON_stringify_customer data) →
  loadCustomerData cs form w =
    (Normal {| feedback_name := cd_name data; feedback_email := cd_email data;
               feedback_phone := cd_phone data;
               feedback_message := feedback_message form |}, w).
Proof.
  intros Hr Hdata. unfold loadCustomerData, bind.
  rewrite getLocalItem_returns, Hdata, truthy_customer by done.
  unfold lift. by rewrite parse_stringify_customer.
Qed.

(** C8, as amended.  Each accepted submission overwrites the one record of
    the durable scope with the record of its own fields, without merging:
    after two accepted submissions the record is that of the second one, its
    message, name, email, phone (blank if it was left blank) and time, and
    this is what the next visit loads into the form. *)
Theorem feedback_last_submission_wins form1 now1 form2 now2 form w :
  ready cs localStorage_t w → accepted form1 → accepted form2 →
  ∃ w1 w2,
    feedback_submit cs form1 now1 w = (Normal (message_cleared form1), w1)
    ∧ feedback_submit cs form2 now2 w1 = (Normal (message_cleared form2), w2)
    ∧ local_items cs w2 !! "customerData" =
        Some (JSON_stringify_customer
                {| cd_name := trim (feedback_name form2);
                   cd_email := trim (feedback_email form2);
                   cd_phone := trim (feedback_phone form2);
                   cd_lastMessage := trim (feedback_message form2);
                   cd_timestamp := now2 |})
    ∧ (∀ k, k ≠ "customerData" → local_items cs w2 !! k = local_items cs w !! k)
    ∧ session_items cs w2 = session_items cs w
    ∧ loadCustomerData cs form w2 =
        (Normal {| feedback_name := trim (feedback_name form2);
                   feedback_email := trim (feedback_email form2);
                   feedback_phone := trim (feedback_phone form2);
                   feedback_message := feedback_message form |}, w2).
Proof.
  intros Hr Hacc1 Hacc2.
  destruct (feedback_submit_saves form1 now1 w Hr Hacc1)
    as (w1 & Hrun1 & Hl1 & Hs1 & _ & Hr1).
  destruct (feedback_submit_saves form2 now2 w1 Hr1 Hacc2)
    as (w2 & Hrun2 & Hl2 & Hs2 & _ & Hr2).
  exists w1, w2. split; [done|]. split; [done|].
  assert (local_items cs w2 !! "customerData" =
          Some (JSON_stringify_customer (customer_of form2 now2))) as Hrec
    by (by rewrite Hl2, lookup_insert_eq).
  split; [done|]. split.
  { intros k Hk. by rewrite Hl2, Hl1, !lookup_insert_ne. }
  split; [congruence|].
  by rewrite (loadCustomerData_returns form _ w2 Hr2 Hrec).
Qed.

End CustomerProfile.

(** ** The theorems at work, and where the specification says more than the
       code does *)

Section Examples.
#[local] Existing Instance symbolic.
#[local] Existing Instance plain_area.
#[local] Existing Instance plain_reliable.

(** A page whose session storage has too small a quota for the probe: the
    adapter marks the scope unavailable, the calls go to the fallback and
    complete, and the storage object is not called again, though the small
    value would fit. *)
Lemma adapter_routing_is_fixed_at_load_witness :
  (@load_cartStorage symbolic _ (quota_area symbolic_size) (quota_page 5)).1
    = Normal fallback_only
  ∧ available fallback_only sessionStorage_t = false
  ∧ window sessionStorage_t
      (@calls symbolic _ (quota_area symbolic_size) fallback_only
         [SetSessionItem "k" (Str "v"); GetSessionItem "k"] (quota_page 5)).2
    = window sessionStorage_t (quota_page 5)
  ∧ (@calls symbolic _ (quota_area symbolic_size) fallback_only
       [SetSessionItem "k" (Str "v"); GetSessionItem "k"] (quota_page 5)).1
    = [Normal Undefined; Normal (Value (Some (Str "v")))].
Proof.
  split; [vm_compute; reflexivity|]. split; [reflexivity|].
  split; [|vm_compute; reflexivity].
  exact (proj1 (proj2 (proj2 (proj2
    (@adapter_routing_is_fixed_at_load symbolic _ (quota_area symbolic_size)
       (quota_page 5) fallback_only
       [SetSessionItem "k" (Str "v"); GetSessionItem "k"] (quota_page 5))))
    sessionStorage_t eq_refl)).
Defined.

(** An adapter call that throws: on a page whose session storage has a
    quota of 20, the probe succeeds and the scope is marked available; a
    later [setSessionItem] of a longer value is the storage object's
    [setItem], and throws. *)
Lemma adapter_call_throws_on_quota :
  (@load_cartStorage symbolic _ (quota_area symbolic_size) (quota_page 20)).1
    = Normal {| useSession := true; useLocal := false |}
  ∧ (@call symbolic _ (quota_area symbolic_size)
       {| useSession := true; useLocal := false |}
       (SetSessionItem "cartItems" (Str "0123456789012345678901234567890"))
       (@load_cartStorage symbolic _ (quota_area symbolic_size) (quota_page 20)).2).1
    = Throw QuotaExceededError.
Proof. split; vm_compute; reflexivity. Qed.

(** A page with both storage objects: the probe finds them, and a sequence
    of calls on both scopes completes. *)
Lemma adapter_calls_complete_on_reliable_storage_witness :
  (load_cartStorage plain_page).1 = Normal both_real
  ∧ fits both_real plain_page
  ∧ Forall (fun r => completes r = true)
      (calls both_real
         [SetSessionItem "theme" (Str "dark"); GetLocalItem "customerData";
          ClearSession; RemoveLocalItem "customerData"] plain_page).1.
Proof.
  assert (fits both_real plain_page) as Hfits
    by (intros [] _; eexists; reflexivity).
  split; [vm_compute; reflexivity|]. split; [exact Hfits|].
  exact (proj1 (adapter_calls_complete_on_reliable_storage both_real
                  [SetSessionItem "theme" (Str "dark");
                   GetLocalItem "customerData";
                   ClearSession; RemoveLocalItem "customerData"]
                  plain_page Hfits)).
Defined.

Lemma example_cart_held :
  holds_cart fallback_only (fallback_cart_page example_cart) example_cart.
Proof. split_and!; vm_compute; reflexivity. Qed.

Lemma example_cart_held_in_storage :
  holds_cart both_real (storage_cart_page example_cart) example_cart.
Proof. split_and!; vm_compute; reflexivity. Qed.

Lemma empty_cart_held : holds_cart fallback_only blocked_page [].
Proof. split_and!; vm_compute; reflexivity. Qed.

Lemma empty_cart_held_in_storage : holds_cart both_real plain_page [].
Proof. split_and!; vm_compute; reflexivity. Qed.




(** The order button on the cart of the specification's example, held in
    the session storage: 3 items ordered, and the cart is gone. *)
Lemma processOrder_counts_then_clears_witness :
  holds_cart both_real (storage_cart_page example_cart) example_cart
  ∧ example_cart ≠ []
  ∧ (total_quantity example_cart ≤ 2 ^ 53)%N
  ∧ ∃ w', processOrder_click both_real (storage_cart_page example_cart)
            = (Normal tt, w')
          ∧ alerts w' = ["Order processed successfully! 3 item(s) ordered."]
          ∧ holds_cart both_real w' [].
Proof.
  assert (total_quantity example_cart ≤ 2 ^ 53)%N as Hsum by (by vm_compute).
  split; [exact example_cart_held_in_storage|]. split; [done|].
  split; [exact Hsum|].
  destruct (proj2 (processOrder_counts_then_clears both_real _ _
                     example_cart_held_in_storage) ltac:(done))
    as (w' & w'' & Hrun & _ & Ha & _ & _ & Hholds & _).
  exists w'. split; [exact Hrun|]. split; [exact (Ha Hsum) | exact Hholds].
Defined.

(** The count is not the sum of the quantities beyond [2^53]: with the
    quantities [2^53] and [1] the sum is [9007199254740993], and the order
    button reports [9007199254740992], the double that [2^53 + 1] is. *)
Lemma processOrder_count_is_a_double :
  holds_cart fallback_only (fallback_cart_page big_cart) big_cart
  ∧ total_quantity big_cart = 9007199254740993%N
  ∧ alerts (processOrder_click fallback_only (fallback_cart_page big_cart)).2
    = [ "Order processed successfully! 9007199254740992 item(s) ordered." ]
  ∧ items_ordered big_cart ≠ Finite (total_quantity big_cart).
Proof.
  split; [split_and!; vm_compute; reflexivity|].
  split_and!; try (vm_compute; reflexivity).
  intros Heq. vm_compute in Heq. discriminate Heq.
Qed.

(** The clear button on the same cart, then the view button. *)
Lemma clearCart_removes_the_entry_witness :
  holds_cart fallback_only (fallback_cart_page example_cart) example_cart
  ∧ example_cart ≠ []
  ∧ ∃ w', clearCart_click fallback_only (fallback_cart_page example_cart)
            = (Normal tt, w')
          ∧ session_items fallback_only w' !! "cartItems" = None
          ∧ viewCart_click fallback_only w'
            = showCustomAlert "Your cart is empty" w'.
Proof.
  split; [exact example_cart_held|]. split; [done|].
  destruct (proj2 (clearCart_removes_the_entry fallback_only _ _
                     example_cart_held) ltac:(done))
    as (w' & Hrun & _ & _ & Hgone & _ & _ & Hview).
  exists w'. split; [exact Hrun|]. split; [exact Hgone | exact Hview].
Defined.

(** Clicks from the empty cart: two adds of one id, an order, another add. *)
Lemma cart_quantities_at_least_one_witness :
  holds_cart both_real plain_page []
  ∧ ∃ cartItems,
      holds_cart both_real
        (clicks both_real
           [AddToCart "A" "A" 10%float; AddToCart "A" "A" 10%float;
            ProcessOrder; AddToCart "B" "B" 5%float] plain_page)
        cartItems
      ∧ Forall (fun p => (1 ≤ quantity p.2)%N) cartItems.
Proof.
  split; [exact empty_cart_held_in_storage|].
  destruct (cart_quantities_at_least_one both_real
              [AddToCart "A" "A" 10%float; AddToCart "A" "A" 10%float;
               ProcessOrder; AddToCart "B" "B" 5%float]
              plain_page empty_cart_held_in_storage)
    as (cartItems & Hholds & Hcounted & _).
  exists cartItems. split; [exact Hholds | exact Hcounted].
Defined.

(** A repeated add of [A] with another name and price. *)
Lemma addToCart_repeat_keeps_name_and_price_witness :
  holds_cart fallback_only (fallback_cart_page example_cart) example_cart
  ∧ own example_cart "A"
    = Some {| name := "A"; price := Some 10%float; quantity := 2 |}
  ∧ ∃ w' cartItems',
      addToCart_click fallback_only "A" "Another" 99%float
        (fallback_cart_page example_cart) = (Normal tt, w')
      ∧ holds_cart fallback_only w' cartItems'
      ∧ own cartItems' "A"
        = Some {| name := "A"; price := Some 10%float; quantity := 3 |}
      ∧ own cartItems' "B" = own example_cart "B".
Proof.
  split; [exact example_cart_held|]. split; [reflexivity|].
  destruct (addToCart_repeat_keeps_name_and_price fallback_only _ _ "A" _
              "Another" 99%float example_cart_held eq_refl)
    as (w' & cartItems' & [n p q] & Hrun & Hholds & HA & Hn & Hp & _ & Hq
        & Hothers & _).
  simpl in Hn, Hp, Hq. specialize (Hq eq_refl). subst n p q.
  exists w', cartItems'. split; [exact Hrun|]. split; [exact Hholds|].
  split; [exact HA|]. by apply Hothers.
Defined.

(** Three adds of one id on the empty cart. *)
Lemma addToCart_same_id_counts_clicks_witness :
  inherited "A" = false
  ∧ holds_cart fallback_only blocked_page []
  ∧ (clicked fallback_only
       [AddToCart "A" "A" 10%float; AddToCart "A" "B" 5%float;
        AddToCart "A" "C" 1%float] blocked_page).1
    = [Normal tt; Normal tt; Normal tt]
  ∧ holds_cart fallback_only
      (clicks fallback_only
         [AddToCart "A" "A" 10%float; AddToCart "A" "B" 5%float;
          AddToCart "A" "C" 1%float] blocked_page)
      [("A", {| name := "A"; price := Some 10%float; quantity := 3 |})].
Proof.
  split; [reflexivity|]. split; [exact empty_cart_held|].
  exact (addToCart_same_id_counts_clicks fallback_only "A" "A" 10%float
           [("B", 5%float); ("C", 1%float)] blocked_page eq_refl empty_cart_held).
Defined.

(** The id [constructor]: the click on the empty cart says that the item
    was added, and the cart is empty as before. *)
Lemma addToCart_inherited_id_inserts_nothing_witness :
  holds_cart fallback_only blocked_page []
  ∧ inherited "constructor" = true
  ∧ ∃ w', addToCart_click fallback_only "constructor" "Widget" 10%float blocked_page
            = (Normal tt, w')
          ∧ alerts w' = ["Item added to cart!"]
          ∧ holds_cart fallback_only w' []
          ∧ viewCart_click fallback_only w'
            = showCustomAlert "Your cart is empty" w'.
Proof.
  split; [exact empty_cart_held|]. split; [reflexivity|].
  destruct (addToCart_inherited_id_inserts_nothing fallback_only blocked_page []
              "constructor" "Widget" 10%float empty_cart_held eq_refl eq_refl)
    as (w' & Hrun & Ha & _ & Hholds & _).
  exists w'. split; [exact Hrun|]. split; [exact Ha|]. split; [exact Hholds|].
  exact (viewCart_click_message fallback_only w' [] Hholds).
Defined.

(** The malformed form: one message, that of the [@] check. *)
Lemma feedback_invalid_shows_first_failing_rule_witness :
  fails malformed_form MessagePresent
  ∧ ∃ r w',
      first_failing_of source_order malformed_form = Some r
      ∧ feedback_submit fallback_only malformed_form "2024-01-01T00:00:00.000Z"
          blocked_page = (Normal malformed_form, w')
      ∧ alerts w' = [rule_alert r]
      ∧ _local w' = _local blocked_page.
Proof.
  split; [reflexivity|].
  destruct (feedback_invalid_shows_first_failing_rule fallback_only
              malformed_form "2024-01-01T00:00:00.000Z" blocked_page
              MessagePresent eq_refl)
    as (r & w' & Hr & _ & Hrun & Ha & _ & _ & _ & Hl).
  exists r, w'. split; [exact Hr|]. split; [exact Hrun|].
  split; [exact Ha | exact Hl].
Defined.

(** The checks are not in an order with the presence checks first.  On the
    malformed form the message raised is that of a shape check, though a
    presence check (of the message) fails; in every order with the presence
    checks first, the first failing rule is that presence check, and its
    message is another one. *)
Lemma feedback_shape_checked_before_message_presence :
  alerts (feedback_submit fallback_only malformed_form
            "2024-01-01T00:00:00.000Z" blocked_page).2
    = [rule_alert EmailIncludesAt]
  ∧ kind EmailIncludesAt = Shape
  ∧ fails malformed_form MessagePresent
  ∧ kind MessagePresent = Presence
  ∧ (∀ order, presence_before_shape order = true → In MessagePresent order →
              first_failing_of order malformed_form = Some MessagePresent)
  ∧ rule_alert MessagePresent ≠ rule_alert EmailIncludesAt.
Proof.
  split_and!; try (vm_compute; reflexivity); try done.
  intros order. apply presence_first_on_blank_message.
Qed.

(** Two accepted submissions, the second with the phone left blank. *)
Lemma feedback_last_submission_wins_witness :
  ready both_real localStorage_t plain_page
  ∧ accepted first_form ∧ accepted second_form
  ∧ ∃ w1 w2,
      feedback_submit both_real first_form "2024-01-01T00:00:00.000Z" plain_page
        = (Normal (message_cleared first_form), w1)
      ∧ feedback_submit both_real second_form "2024-01-02T00:00:00.000Z" w1
        = (Normal (message_cleared second_form), w2)
      ∧ local_items both_real w2 !! "customerData"
        = Some (CustomerText
                  {| cd_name := "Ann"; cd_email := "ann@example.com";
                     cd_phone := ""; cd_lastMessage := "second";
                     cd_timestamp := "2024-01-02T00:00:00.000Z" |}).
Proof.
  assert (ready both_real localStorage_t plain_page) as Hr by (intros _; eexists; reflexivity).
  split; [exact Hr|]. split; [reflexivity|]. split; [reflexivity|].
  destruct (feedback_last_submission_wins both_real first_form
              "2024-01-01T00:00:00.000Z" second_form "2024-01-02T00:00:00.000Z"
              first_form plain_page Hr eq_refl eq_refl)
    as (w1 & w2 & Hrun1 & Hrun2 & Hrec & _).
  exists w1, w2. split; [exact Hrun1|]. split; [exact Hrun2 | exact Hrec].
Defined.

(** The record does not keep a field from the most recent submission that
    supplied it: after these two submissions the phone of the record is
    blank, not the phone the first one supplied. *)
Lemma feedback_blank_phone_overwrites :
  accepted first_form ∧ accepted second_form
  ∧ _local (feedback_submit fallback_only second_form "2024-01-02T00:00:00.000Z"
              (feedback_submit fallback_only first_form
                 "2024-01-01T00:00:00.000Z" blocked_page).2).2
      !! "customerData"
    = Some (CustomerText
              {| cd_name := "Ann"; cd_email := "ann@example.com";
                 cd_phone := ""; cd_lastMessage := "second";
                 cd_timestamp := "2024-01-02T00:00:00.000Z" |})
  ∧ latest_supplied [feedback_phone first_form; feedback_phone second_form]
    = "555-0100".
Proof. split_and!; vm_compute; reflexivity. Qed.

End Examples.

(** * More of the script *)

(** ** The probe and the adapter on storage that works *)

Section ProbeOnReliable.
Context `{R : Runtime} {H : Type} `{!StorageArea H} `{!Reliable H}.
Implicit Types (w : World H) (cs : CartStorage) (k : string) (v : text).

Lemma set_window_twice type (h h' : H) w :
  set_window type h' (set_window type h w) = set_window type h' w.
Proof. by destruct type. Qed.

(** On an object that works the probe answers [true]; what the object
    holds afterwards is what it held, less the test key. *)
Lemma isStorageAvailable_present type w h :
  window type w = Some h →
  ∃ h', isStorageAvailable type w = (Normal true, set_window type h' w)
        ∧ items h' = delete testKey (items h).
Proof.
  intros Hw. unfold isStorageAvailable, try_catch, bind, on_storage, ret.
  rewrite Hw.
  pose proof (setItem_returns testKey (text_of_string "1") h) as Hset.
  pose proof (setItem_items testKey (text_of_string "1") h) as Hset'.
  destruct (setItem testKey (text_of_string "1") h) as [r1 h1].
  simpl in *. subst r1.
  rewrite window_set_window, decide_True by done.
  pose proof (removeItem_returns testKey h1) as Hrem.
  pose proof (removeItem_items testKey h1) as Hrem'.
  destruct (removeItem testKey h1) as [r2 h2]. simpl in *. subst r2.
  exists h2. rewrite set_window_twice. split; [done|].
  rewrite Hrem', Hset'. apply map_eq. intros k.
  destruct (decide (k = testKey)) as [->|Hk].
  - by rewrite !lookup_delete_eq.
  - by rewrite !lookup_delete_ne, lookup_insert_ne.
Qed.

Lemma isStorageAvailable_missing type w :
  window type w = None → isStorageAvailable type w = (Normal false, w).
Proof.
  intros Hw. unfold isStorageAvailable, try_catch, bind, on_storage, ret.
  by rewrite Hw.
Qed.

(** The probe (lines 3-13) on storage that works.  Without an object it
    answers [false] and changes nothing.  With one it answers [true], and
    the object then holds what it held before except under the test key
    [__storage_test__], which is gone: a value another script kept there is
    deleted.  The other object, the fallback and the screen are as before. *)
Theorem probe_removes_only_the_test_key type w :
  (window type w = None → isStorageAvailable type w = (Normal false, w))
  ∧ (∀ h, window type w = Some h →
       ∃ h' w',
         isStorageAvailable type w = (Normal true, w')
         ∧ window type w' = Some h'
         ∧ items h' !! testKey = None
         ∧ (∀ k, k ≠ testKey → items h' !! k = items h !! k)
         ∧ (∀ type', type' ≠ type → window type' w' = window type' w)
         ∧ _session w' = _session w ∧ _local w' = _local w
         ∧ alerts w' = alerts w).
Proof.
  split; [apply isStorageAvailable_missing|]. intros h Hw.
  destruct (isStorageAvailable_present type w h Hw) as (h' & Hrun & Hitems).
  exists h', (set_window type h' w). split; [done|].
  split; [by rewrite window_set_window, decide_True|].
  split; [by rewrite Hitems, lookup_delete_eq|].
  split; [intros k Hk; by rewrite Hitems, lookup_delete_ne|].
  split; [intros type' Hne; by rewrite window_set_window, decide_False|].
  by destruct type.
Qed.

(* the two probes of lines 28-29 *)
Lemma probes_reliable w0 :
  ∃ w, (let! s := isStorageAvailable sessionStorage_t in
        let! l := isStorageAvailable localStorage_t in
        ret {| useSession := s; useLocal := l |}) w0
       = (Normal {| useSession := has_storage sessionStorage_t w0;
                    useLocal := has_storage localStorage_t w0 |}, w)
       ∧ (∀ type h, window type w0 = Some h →
            ∃ h', window type w = Some h' ∧ items h' = delete testKey (items h))
       ∧ (∀ type, window type w0 = None → window type w = None)
       ∧ _session w = _session w0 ∧ _local w = _local w0
       ∧ alerts w = alerts w0.
Proof.
  unfold bind, has_storage. simpl.
  destruct (sessionStorage w0) as [hs|] eqn:Hs.
  - destruct (isStorageAvailable_present sessionStorage_t w0 hs Hs)
      as (hs' & -> & Hhs).
    destruct (localStorage w0) as [hl|] eqn:Hl.
    + destruct (isStorageAvailable_present localStorage_t
                  (set_window sessionStorage_t hs' w0) hl Hl) as (hl' & -> & Hhl).
      eexists. split; [reflexivity|]. simpl. split_and!; try done;
        first [ intros [] h; simpl; rewrite ?Hs, ?Hl; intros [= <-]; by eauto
              | intros []; simpl; by rewrite ?Hs, ?Hl ].
    + rewrite (isStorageAvailable_missing localStorage_t
                 (set_window sessionStorage_t hs' w0) Hl).
      eexists. split; [reflexivity|]. simpl. split_and!; try done;
        first [ intros [] h; simpl; rewrite ?Hs, ?Hl; intros [= <-]; by eauto
              | intros []; simpl; by rewrite ?Hs, ?Hl ].
  - rewrite (isStorageAvailable_missing sessionStorage_t w0 Hs).
    destruct (localStorage w0) as [hl|] eqn:Hl.
    + destruct (isStorageAvailable_present localStorage_t w0 hl Hl)
        as (hl' & -> & Hhl).
      eexists. split; [reflexivity|]. simpl. split_and!; try done;
        first [ intros [] h; simpl; rewrite ?Hs, ?Hl; intros [= <-]; by eauto
              | intros []; simpl; by rewrite ?Hs, ?Hl ].
    + rewrite (isStorageAvailable_missing localStorage_t w0 Hl).
      eexists. split; [reflexivity|]. simpl. split_and!; try done;
        first [ intros [] h; simpl; rewrite ?Hs, ?Hl; intros [= <-]; by eauto
              | intros []; simpl; by rewrite ?Hs, ?Hl ].
Qed.

Lemma load_cartStorage_reliable w0 :
  ∃ w, load_cartStorage w0
       = (Normal {| useSession := has_storage sessionStorage_t w0;
                    useLocal := has_storage localStorage_t w0 |}, w)
       ∧ (∀ type h, window type w0 = Some h →
            ∃ h', window type w = Some h' ∧ items h' = delete testKey (items h))
       ∧ (∀ type, window type w0 = None → window type w = None)
       ∧ _session w = ∅ ∧ _local w = ∅
       ∧ alerts w = alerts w0.
Proof.
  destruct (probes_reliable (new_fallback w0).2)
    as (w & Hrun & Hsome & Hnone & Hs & Hl & Ha).
  exists w. split; [|split_and!; done].
  unfold load_cartStorage. unfold bind at 1. simpl. exact Hrun.
Qed.

(** Loading the script (lines 16-46) on storage that works: the adapter
    uses each storage object exactly when the window has it, and it fits
    the page.  What a storage object held is kept, but for the key of the
    probe: the cart under [cartItems] is the cart the page reads after the
    load, and the durable scope keeps [customerData].  A scope without its
    storage object is served by the new fallback, which holds nothing: the
    page reads the empty cart, whatever the fallback of an earlier load
    held. *)
Theorem load_keeps_storage_and_empties_the_fallback w0 :
  ∃ cs w,
    load_cartStorage w0 = (Normal cs, w)
    ∧ useSession cs = has_storage sessionStorage_t w0
    ∧ useLocal cs = has_storage localStorage_t w0
    ∧ fits cs w
    ∧ _session w = ∅ ∧ _local w = ∅
    ∧ (∀ k, k ≠ testKey →
         session_items cs w !! k
         = if useSession cs then session_items cs w0 !! k else None)
    ∧ (∀ k, k ≠ testKey →
         local_items cs w !! k
         = if useLocal cs then local_items cs w0 !! k else None)
    ∧ getCartFromSession cs w
      = (if useSession cs then stored_cart (session_items cs w0) else Normal [],
         w).
Proof.
  destruct (load_cartStorage_reliable w0)
    as (w & Hload & Hsome & Hnone & Hfs & Hfl & _).
  set (cs := {| useSession := has_storage sessionStorage_t w0;
                useLocal := has_storage localStorage_t w0 |}) in *.
  assert (fits cs w) as Hfits.
  { intros type Hav.
    assert (has_storage type w0 = true) as Hhas by (by destruct type).
    unfold has_storage in Hhas.
    destruct (window type w0) as [h|] eqn:Hw; [|done].
    destruct (Hsome _ _ Hw) as (h' & -> & _). eauto. }
  assert (∀ k, k ≠ testKey →
               session_items cs w !! k
               = if useSession cs then session_items cs w0 !! k else None)
    as Hsession.
  { intros k Hk. unfold session_items, cs, has_storage. simpl.
    destruct (sessionStorage w0) as [h|] eqn:Hw.
    - destruct (Hsome sessionStorage_t h Hw) as (h' & Hw' & Hitems).
      simpl in Hw'. by rewrite Hw', Hitems, lookup_delete_ne.
    - by rewrite Hfs. }
  exists cs, w. split; [done|]. split; [done|]. split; [done|].
  split; [done|]. split; [done|]. split; [done|]. split; [done|]. split.
  - intros k Hk. unfold local_items, cs, has_storage. simpl.
    destruct (localStorage w0) as [h|] eqn:Hw.
    + destruct (Hsome localStorage_t h Hw) as (h' & Hw' & Hitems).
      simpl in Hw'. by rewrite Hw', Hitems, lookup_delete_ne.
    + by rewrite Hfl.
  - rewrite getCartFromSession_stored by apply Hfits.
    unfold stored_cart. rewrite Hsession by done.
    by destruct (useSession cs).
Qed.

End ProbeOnReliable.

(** ** The adapter as two maps *)

Section AdapterAsMaps.
Context `{R : Runtime} {H : Type} `{!StorageArea H} `{!Reliable H}.
Variable cs : CartStorage.
Implicit Types (w : World H) (k : string) (v : text) (o : Op).

Lemma setItem_pair k v (h : H) : setItem k v h = (Normal tt, (setItem k v h).2).
Proof.
  pose proof (setItem_returns k v h) as Hr.
  destruct (setItem k v h) as [r h']. simpl in *. by subst.
Qed.

Lemma removeItem_pair k (h : H) : removeItem k h = (Normal tt, (removeItem k h).2).
Proof.
  pose proof (removeItem_returns k h) as Hr.
  destruct (removeItem k h) as [r h']. simpl in *. by subst.
Qed.

Lemma clearItems_pair (h : H) : clearItems h = (Normal tt, (clearItems h).2).
Proof.
  pose proof (clearItems_returns h) as Hr.
  destruct (clearItems h) as [r h']. simpl in *. by subst.
Qed.

Lemma on_storage_returns {A} type (m : M H A) w h a h' :
  window type w = Some h → m h = (Normal a, h') →
  on_storage type m w = (Normal a, set_window type h' w).
Proof. intros Hw Hm. unfold on_storage. by rewrite Hw, Hm. Qed.

Lemma scopes_of_set_session h' w :
  useSession cs = true →
  scopes_of cs (set_window sessionStorage_t h' w)
  = {| session := items h'; durable := local_items cs w |}.
Proof.
  intros Hu. unfold scopes_of, session_items, local_items. simpl. by rewrite Hu.
Qed.

Lemma scopes_of_set_local h' w :
  useLocal cs = true →
  scopes_of cs (set_window localStorage_t h' w)
  = {| session := session_items cs w; durable := items h' |}.
Proof.
  intros Hu. unfold scopes_of, session_items, local_items. simpl. by rewrite Hu.
Qed.

Lemma fits_set_window type h' w : fits cs w → fits cs (set_window type h' w).
Proof.
  intros Hfits type' Hav. specialize (Hfits type' Hav).
  rewrite window_set_window. case_decide; eauto.
Qed.

Lemma items_session h w :
  useSession cs = true → sessionStorage w = Some h → session_items cs w = items h.
Proof. intros Hu Hw. unfold session_items. by rewrite Hu, Hw. Qed.

Lemma items_local h w :
  useLocal cs = true → localStorage w = Some h → local_items cs w = items h.
Proof. intros Hu Hw. unfold local_items. by rewrite Hu, Hw. Qed.

(** One call: what it returns and what the scopes hold afterwards are what
    [map_call] says. *)
Lemma call_map_call o w :
  fits cs w →
  ∃ w', call cs o w = (Normal (map_call cs o (scopes_of cs w)).1, w')
        ∧ scopes_of cs w' = (map_call cs o (scopes_of cs w)).2
        ∧ fits cs w'
        ∧ alerts w' = alerts w.
Proof.
  intros Hfits.
  destruct o as [k v|k|k| |k v|k|k]; simpl;
    unfold undefined, value, bind,
      setSessionItem, getSessionItem, removeSessionItem, clearSession,
      setLocalItem, getLocalItem, removeLocalItem, put.
  - destruct (useSession cs) eqn:Hu.
    + destruct (Hfits sessionStorage_t Hu) as [h Hh]. simpl in Hh.
      rewrite (on_storage_returns sessionStorage_t _ w h _ _ Hh (setItem_pair k v h)).
      eexists. split; [reflexivity|]. rewrite scopes_of_set_session by done.
      split; [|split; [by apply fits_set_window | done]].
      simpl. by rewrite setItem_items, (items_session h w).
    + eexists. split; [reflexivity|]. split; [|done].
      unfold scopes_of, session_items, local_items. simpl. by rewrite Hu.
  - destruct (useSession cs) eqn:Hu.
    + destruct (Hfits sessionStorage_t Hu) as [h Hh]. simpl in Hh.
      rewrite (on_storage_returns sessionStorage_t _ w h _ _ Hh (getItem_returns k h)).
      exists (set_window sessionStorage_t h w).
      assert (set_window sessionStorage_t h w = w) as ->
        by (destruct w; simpl in *; by subst).
      split; [|done]. simpl. by rewrite (items_session h w).
    + exists w. split; [|done].
      unfold scopes_of, session_items, local_items, sessionGet, localGet.
      simpl. by rewrite Hu.
  - destruct (useSession cs) eqn:Hu.
    + destruct (Hfits sessionStorage_t Hu) as [h Hh]. simpl in Hh.
      rewrite (on_storage_returns sessionStorage_t _ w h _ _ Hh (removeItem_pair k h)).
      eexists. split; [reflexivity|]. rewrite scopes_of_set_session by done.
      split; [|split; [by apply fits_set_window | done]].
      simpl. by rewrite removeItem_items, (items_session h w).
    + eexists. split; [reflexivity|]. split; [|done].
      unfold scopes_of, session_items, local_items. simpl. by rewrite Hu.
  - destruct (useSession cs) eqn:Hu.
    + destruct (Hfits sessionStorage_t Hu) as [h Hh]. simpl in Hh.
      rewrite (on_storage_returns sessionStorage_t _ w h _ _ Hh (clearItems_pair h)).
      eexists. split; [reflexivity|]. rewrite scopes_of_set_session by done.
      split; [|split; [by apply fits_set_window | done]].
      simpl. by rewrite clearItems_items.
    + eexists. split; [reflexivity|]. split; [|done].
      unfold scopes_of, session_items, local_items. simpl. by rewrite Hu.
  - destruct (useLocal cs) eqn:Hu.
    + destruct (Hfits localStorage_t Hu) as [h Hh]. simpl in Hh.
      rewrite (on_storage_returns localStorage_t _ w h _ _ Hh (setItem_pair k v h)).
      eexists. split; [reflexivity|]. rewrite scopes_of_set_local by done.
      split; [|split; [by apply fits_set_window | done]].
      simpl. by rewrite setItem_items, (items_local h w).
    + eexists. split; [reflexivity|]. split; [|done].
      unfold scopes_of, session_items, local_items. simpl. by rewrite Hu.
  - destruct (useLocal cs) eqn:Hu.
    + destruct (Hfits localStorage_t Hu) as [h Hh]. simpl in Hh.
      rewrite (on_storage_returns localStorage_t _ w h _ _ Hh (getItem_returns k h)).
      exists (set_window localStorage_t h w).
      assert (set_window localStorage_t h w = w) as ->
        by (destruct w; simpl in *; by subst).
      split; [|done]. simpl. by rewrite (items_local h w).
    + exists w. split; [|done].
      unfold scopes_of, session_items, local_items, sessionGet, localGet.
      simpl. by rewrite Hu.
  - destruct (useLocal cs) eqn:Hu.
    + destruct (Hfits localStorage_t Hu) as [h Hh]. simpl in Hh.
      rewrite (on_storage_returns localStorage_t _ w h _ _ Hh (removeItem_pair k h)).
      eexists. split; [reflexivity|]. rewrite scopes_of_set_local by done.
      split; [|split; [by apply fits_set_window | done]].
      simpl. by rewrite removeItem_items, (items_local h w).
    + eexists. split; [reflexivity|]. split; [|done].
      unfold scopes_of, session_items, local_items. simpl. by rewrite Hu.
Qed.

Lemma calls_map_calls ops w :
  fits cs w →
  (calls cs ops w).1 = map Normal (map_calls cs ops (scopes_of cs w)).1
  ∧ scopes_of cs (calls cs ops w).2 = (map_calls cs ops (scopes_of cs w)).2
  ∧ fits cs (calls cs ops w).2
  ∧ alerts (calls cs ops w).2 = alerts w.
Proof.
  revert w. induction ops as [|o ops IH]; intros w Hfits; simpl; [done|].
  destruct (call_map_call o w Hfits) as (w1 & Hcall & Hsc & Hfits1 & Ha1).
  rewrite Hcall. destruct (map_call cs o (scopes_of cs w)) as [r s1].
  simpl in *. destruct (IH w1 Hfits1) as (Hrs & Hsc2 & Hfits2 & Ha2).
  rewrite Hsc in *. destruct (calls cs ops w1) as [rs w2].
  destruct (map_calls cs ops s1) as [rs' s2]. simpl in *.
  split; [by rewrite Hrs|]. split; [done|]. split; [done | congruence].
Qed.

(** The adapter (lines 32-46) on storage that works is two maps, one per
    scope.  For every sequence of calls, what each call returns and what the
    scopes hold at the end are what the same operations give on the maps:
    a read gives the value last written under the key, or [null]; a removal
    or [clearSession] forgets; a call of one scope leaves the other scope as
    it was.  No call shows anything on the screen. *)
Theorem adapter_is_two_maps (ops : list Op) w :
  fits cs w →
  (calls cs ops w).1 = map Normal (map_calls cs ops (scopes_of cs w)).1
  ∧ scopes_of cs (calls cs ops w).2 = (map_calls cs ops (scopes_of cs w)).2
  ∧ fits cs (calls cs ops w).2
  ∧ alerts (calls cs ops w).2 = alerts w.
Proof. apply calls_map_calls. Qed.

(** Write, read, remove, read (lines 34-36 and 40-42): on storage that
    works, and on the fallback for every key but [__proto__], the value
    written under a key is the value read, until the key is removed; the
    other keys of the scope and the other scope are as they were. *)
Theorem adapter_write_read_remove k v w :
  fits cs w → useSession cs = true ∨ k ≠ "__proto__" →
  (calls cs [SetSessionItem k v; GetSessionItem k; RemoveSessionItem k;
             GetSessionItem k] w).1
  = [Normal Undefined; Normal (Value (Some v)); Normal Undefined;
     Normal (Value None)]
  ∧ (∀ k', k' ≠ k →
       session_items cs
         (calls cs [SetSessionItem k v; RemoveSessionItem k] w).2 !! k'
       = session_items cs w !! k')
  ∧ local_items cs (calls cs [SetSessionItem k v; RemoveSessionItem k] w).2
    = local_items cs w.
Proof.
  intros Hfits Hk.
  assert (put (useSession cs) k v (session_items cs w)
          = <[k := v]> (session_items cs w)) as Hput.
  { unfold put, assign. destruct (useSession cs); [done|].
    destruct Hk as [|Hk]; [done|]. by rewrite decide_False. }
  destruct (calls_map_calls
              [SetSessionItem k v; GetSessionItem k; RemoveSessionItem k;
               GetSessionItem k] w Hfits) as (-> & _).
  destruct (calls_map_calls [SetSessionItem k v; RemoveSessionItem k] w Hfits)
    as (_ & Hsc & _).
  apply (f_equal session) in Hsc as Hs. apply (f_equal durable) in Hsc as Hl.
  simpl in *. rewrite Hput in *.
  split; [by rewrite lookup_insert_eq, lookup_delete_eq|].
  split; [|done].
  intros k' Hk'. rewrite Hs. by rewrite lookup_delete_ne, lookup_insert_ne.
Qed.

(** The key [__proto__] on the fallback (lines 19-25): the assignment
    [this._session[k] = String(v)] does not create the property, so a value
    written under this key is not read back; a storage object reads it
    back.  Whatever calls are made, the fallback never holds the key. *)
Theorem fallback_drops_the_key_proto (ops : list Op) v w :
  fits cs w →
  (calls cs [SetSessionItem "__proto__" v; GetSessionItem "__proto__"] w).1
  = [Normal Undefined;
     Normal (Value (if useSession cs then Some v
                    else session_items cs w !! "__proto__"))]
  ∧ (useSession cs = false → session_items cs w !! "__proto__" = None →
     session_items cs (calls cs ops w).2 !! "__proto__" = None).
Proof.
  intros Hfits. split.
  - destruct (calls_map_calls
                [SetSessionItem "__proto__" v; GetSessionItem "__proto__"]
                w Hfits) as (-> & _).
    simpl. unfold put, assign. destruct (useSession cs); simpl.
    + by rewrite lookup_insert_eq.
    + done.
  - intros Hu Hnone.
    destruct (calls_map_calls ops w Hfits) as (_ & Hsc & _).
    apply (f_equal session) in Hsc. simpl in Hsc. rewrite Hsc. clear Hsc.
    assert (session (scopes_of cs w) !! "__proto__" = None) as Hs by done.
    revert Hs. generalize (scopes_of cs w). clear Hnone.
    induction ops as [|o ops IH]; intros s Hs; simpl; [done|].
    destruct (map_call cs o s) as [r s1] eqn:Ho.
    specialize (IH s1). destruct (map_calls cs ops s1) as [rs s2]. simpl in *.
    apply IH. destruct o; simpl in Ho; injection Ho as <- <-; simpl; try done.
    + unfold put, assign. rewrite Hu. case_decide; [done|].
      by rewrite lookup_insert_ne.
    + destruct (decide (key = "__proto__")) as [->|].
      * by rewrite lookup_delete_eq.
      * by rewrite lookup_delete_ne.
Qed.

(** [clearSession] (lines 22 and 37) on storage that works: the session
    scope holds nothing afterwards, whatever it held and under whatever
    keys; the page then holds the empty cart; the durable scope is as it
    was. *)
Theorem clearSession_empties_the_session_scope w :
  fits cs w →
  ∃ w', clearSession cs w = (Normal tt, w')
        ∧ session_items cs w' = ∅
        ∧ local_items cs w' = local_items cs w
        ∧ holds_cart cs w' []
        ∧ viewCart_click cs w' = showCustomAlert "Your cart is empty" w'.
Proof.
  intros Hfits.
  destruct (call_map_call ClearSession w Hfits) as (w' & Hcall & Hsc & Hfits' & _).
  simpl in Hcall. unfold undefined, bind in Hcall.
  destruct (clearSession cs w) as [[[]|e] w''] eqn:Hclear; [|done].
  injection Hcall as ->.
  apply (f_equal session) in Hsc as Hs. apply (f_equal durable) in Hsc as Hl.
  simpl in Hs, Hl.
  assert (holds_cart cs w' []) as Hholds.
  { apply holds_cart_stored. split; [apply Hfits'|].
    unfold stored_cart. by rewrite Hs. }
  exists w'. split_and!; try done.
  by rewrite (viewCart_click_message cs w' [] Hholds).
Qed.

End AdapterAsMaps.

(** ** The stored cart at its edges *)

Section CartEdges.
Context `{R : Runtime} {H : Type} `{!StorageArea H} `{!Reliable H}.
Variable cs : CartStorage.
Implicit Types (w : World H) (cartItems : Cart).

Lemma getCartFromSession_throws w t e :
  ready cs sessionStorage_t w →
  session_items cs w !! "cartItems" = Some t →
  truthy t = true → JSON_parse_cart t = Throw e →
  getCartFromSession cs w = (Throw e, w).
Proof.
  intros Hr Ht Htruthy Hparse.
  rewrite getCartFromSession_stored by done.
  unfold stored_cart. by rewrite Ht, Htruthy, Hparse.
Qed.

Lemma holds_cart_blank w :
  ready cs sessionStorage_t w →
  session_items cs w !! "cartItems" = None
  ∨ (∃ t, session_items cs w !! "cartItems" = Some t ∧ truthy t = false) →
  holds_cart cs w [].
Proof.
  intros Hr Hblank. apply holds_cart_stored. split; [done|].
  split; [|done]. unfold stored_cart.
  destruct Hblank as [-> | (t & -> & ->)]; done.
Qed.

(** A stored text that [JSON.parse] rejects (lines 105-108): every button
    of the cart reads the cart first, so its handler ends with the exception
    of [JSON.parse]; it shows no message and stores nothing, and this stays
    so until the text is replaced. *)
Theorem unreadable_cart_stops_every_button (b : button) w t e :
  ready cs sessionStorage_t w →
  session_items cs w !! "cartItems" = Some t →
  truthy t = true → JSON_parse_cart t = Throw e →
  click cs b w = (Throw e, w).
Proof.
  intros Hr Ht Htruthy Hparse.
  pose proof (getCartFromSession_throws w t e Hr Ht Htruthy Hparse) as Hget.
  destruct b; simpl;
    unfold addToCart_click, viewCart_click, clearCart_click,
      processOrder_click, bind; by rewrite Hget.
Qed.

(** No entry [cartItems], or the empty string under it (line 107, where
    [cartData ? ... : {}] tests the text and not the key): the page holds
    the empty cart without parsing anything, and the three buttons that
    read the cart show their message for the empty cart. *)
Theorem blank_entry_reads_as_the_empty_cart w :
  ready cs sessionStorage_t w →
  session_items cs w !! "cartItems" = None
  ∨ (∃ t, session_items cs w !! "cartItems" = Some t ∧ truthy t = false) →
  getCartFromSession cs w = (Normal [], w)
  ∧ viewCart_click cs w = showCustomAlert "Your cart is empty" w
  ∧ clearCart_click cs w = showCustomAlert "No items to clear" w
  ∧ processOrder_click cs w = showCustomAlert "No items in cart" w.
Proof.
  intros Hr Hblank. pose proof (holds_cart_blank w Hr Hblank) as Hholds.
  split; [apply Hholds|].
  rewrite (viewCart_click_message cs w [] Hholds).
  by rewrite (clearCart_click_empty cs w Hholds),
    (processOrder_click_empty cs w Hholds).
Qed.

End CartEdges.

(** ** Quantities and the order of the keys *)

Section CartObject.
Implicit Types (o : Cart) (k : string) (item : CartItem).

Lemma total_quantity_increment k o item :
  own o k = Some item → (quantity item < 2 ^ 53)%N →
  total_quantity (increment k o) = (total_quantity o + 1)%N.
Proof.
  induction o as [|[k' item'] o IH]; simpl; [done|].
  destruct (String.eqb k k'); simpl.
  - intros [= ->] Hq. rewrite round53_safe by lia. lia.
  - intros Ho Hq. rewrite IH by done. lia.
Qed.

Lemma total_quantity_add_index i k item o :
  total_quantity (add_index i k item o) = (quantity item + total_quantity o)%N.
Proof.
  induction o as [|[k' item'] o IH]; simpl; [done|].
  destruct (array_index k') as [j|]; [|done].
  destruct (j <? i)%N; simpl; [|done]. rewrite IH. lia.
Qed.

Lemma total_quantity_add_property k item o :
  total_quantity (add_property k item o) = (quantity item + total_quantity o)%N.
Proof.
  unfold add_property. destruct (array_index k).
  - apply total_quantity_add_index.
  - induction o as [|[k' item'] o IH]; simpl; [lia|]. rewrite IH. lia.
Qed.

Lemma total_quantity_json_cart o : total_quantity (json_cart o) = total_quantity o.
Proof. induction o as [|[k item] o IH]; simpl; [done|]. by rewrite IH. Qed.

Lemma own_keys o k item : own o k = Some item → k ∈ keys o.
Proof.
  intros Ho. destruct (decide (k ∈ keys o)) as [|Hn]; [done|].
  apply own_None in Hn. congruence.
Qed.

Lemma Forall_keys_add_index (P : string → Prop) i k item o :
  P k → Forall P (keys o) → Forall P (keys (add_index i k item o)).
Proof.
  intros Hk. induction o as [|[k' item'] o IH]; simpl; intros Ho.
  - by constructor.
  - destruct (array_index k') as [j|]; [|by constructor].
    destruct (j <? i)%N; [|by constructor].
    apply Forall_cons in Ho as [Hk' Ho]. constructor; [done | by apply IH].
Qed.

Lemma Forall_keys_add_property (P : string → Prop) k item o :
  P k → Forall P (keys o) → Forall P (keys (add_property k item o)).
Proof.
  intros Hk Ho. unfold add_property. destruct (array_index k).
  - by apply Forall_keys_add_index.
  - unfold keys. rewrite fmap_app. apply Forall_app. split; [done|].
    by constructor.
Qed.

(* no own key of the cart is a name of [Object.prototype] *)
Lemma Forall_keys_add_item o itemId itemName itemPrice :
  Forall (λ k, inherited k = false) (keys o) →
  Forall (λ k, inherited k = false) (keys (add_item o itemId itemName itemPrice)).
Proof.
  intros Ho. unfold add_item, get. destruct (own o itemId) eqn:Hown.
  - by rewrite keys_increment.
  - destruct (inherited itemId) eqn:Hin; [done|].
    by apply Forall_keys_add_property.
Qed.

Lemma total_quantity_add_item o itemId itemName itemPrice :
  Forall (λ k, inherited k = false) (keys o) →
  (total_quantity o + (if inherited itemId then 0 else 1) ≤ 2 ^ 53)%N →
  total_quantity (add_item o itemId itemName itemPrice)
  = (total_quantity o + if inherited itemId then 0 else 1)%N.
Proof.
  intros Ho Hsum. unfold add_item, get. destruct (own o itemId) eqn:Hown.
  - pose proof (quantity_le_total _ _ _ Hown) as Hle.
    pose proof (own_keys _ _ _ Hown) as Hkey.
    rewrite Forall_forall in Ho. rewrite (Ho _ Hkey) in *.
    rewrite (total_quantity_increment _ _ _ Hown) by lia. done.
  - destruct (inherited itemId); [lia|].
    rewrite total_quantity_add_property. simpl. lia.
Qed.

(* the keys after a key of an object: an array index only after a smaller one *)
Lemma keys_after k o :
  forallb (key_before k) (keys o) = true →
  Forall (λ p, ∀ j', array_index p.1 = Some j' →
                     ∃ j, array_index k = Some j ∧ (j < j')%N) o.
Proof.
  induction o as [|[k' item'] o IH]; simpl; [by constructor|].
  intros (Hb & Ho)%andb_true_iff. constructor; [|by apply IH].
  simpl. intros j' Hj'. unfold key_before in Hb. rewrite Hj' in Hb.
  destruct (array_index k) as [j|]; [|done].
  exists j. split; [done|]. by apply N.ltb_lt.
Qed.

(** Where [o[k] = item] puts a new array index: after the smaller indices
    and before everything else. *)
Lemma add_index_place i k item o :
  array_index k = Some i → own o k = None → is_object o = true →
  ∃ l r, o = (l ++ r)%list
         ∧ add_index i k item o = (l ++ (k, item) :: r)%list
         ∧ Forall (λ p, ∃ j, array_index p.1 = Some j ∧ (j < i)%N) l
         ∧ Forall (λ p, ∀ j, array_index p.1 = Some j → (i < j)%N) r.
Proof.
  intros Hi. induction o as [|[k' item'] o IH]; simpl; intros Hown Hobj.
  - exists [], []. by repeat split.
  - unfold is_object in Hobj. simpl in Hobj.
    apply andb_true_iff in Hobj as [Hb Hobj].
    destruct (String.eqb k k') eqn:Heq; [done|].
    apply String.eqb_neq in Heq.
    pose proof (keys_after k' o Hb) as Hafter.
    destruct (array_index k') as [j|] eqn:Hj.
    + destruct (j <? i)%N eqn:Hlt.
      * destruct (IH Hown Hobj) as (l & r & -> & -> & Hl & Hr).
        exists ((k', item') :: l), r. split; [done|]. split; [done|].
        split; [|done]. constructor; [|done].
        exists j. split; [done|]. by apply N.ltb_lt.
      * exists [], ((k', item') :: o). split; [done|]. split; [done|].
        split; [constructor|]. apply N.ltb_ge in Hlt.
        assert (i ≠ j) as Hne.
        { intros ->. apply Heq. by eapply array_index_inj. }
        constructor.
        -- simpl. intros j' Hj'. assert (j' = j) by congruence. lia.
        -- eapply Forall_impl; [exact Hafter|].
           intros p Hp j' Hj'. destruct (Hp j' Hj') as (j0 & Hj0 & Hlt0).
           assert (j0 = j) by congruence. lia.
    + exists [], ((k', item') :: o). split; [done|]. split; [done|].
      split; [constructor|]. constructor.
      * simpl. intros j' Hj'. congruence.
      * eapply Forall_impl; [exact Hafter|].
        intros p Hp j' Hj'. by destruct (Hp j' Hj') as (j0 & Hj0 & _).
Qed.

End CartObject.

Section CartClicks.
Context `{R : Runtime} {H : Type} `{!StorageArea H} `{!Reliable H}.
Variable cs : CartStorage.
Implicit Types (w : World H) (cartItems : Cart).

Lemma add_clicks_counted (args : list (string * string * float)) :
  ∀ w cartItems,
    holds_cart cs w cartItems →
    Forall (λ k, inherited k = false) (keys cartItems) →
    (total_quantity cartItems
     + N.of_nat (length (List.filter (λ a, negb (inherited a.1.1)) args))
     ≤ 2 ^ 53)%N →
    ∃ cartItems',
      holds_cart cs (clicks cs (add_clicks args) w) cartItems'
      ∧ Forall (λ k, inherited k = false) (keys cartItems')
      ∧ total_quantity cartItems'
        = (total_quantity cartItems
           + N.of_nat (length (List.filter (λ a, negb (inherited a.1.1)) args)))%N
      ∧ local_items cs (clicks cs (add_clicks args) w) = local_items cs w
      ∧ alerts (clicks cs (add_clicks args) w)
        = (alerts w ++ repeat "Item added to cart!" (length args))%list.
Proof.
  induction args as [|[[itemId itemName] itemPrice] args IH];
    intros w cartItems Hholds Hkeys Hsum.
  - exists cartItems. simpl. rewrite N.add_0_r, app_nil_r. done.
  - destruct (addToCart_click_returns cs w _ itemId itemName itemPrice Hholds)
      as (w' & Hrun & Hholds' & _ & Hlocal & Halerts).
    pose proof (Forall_keys_add_item _ itemId itemName itemPrice Hkeys) as Hkeys'.
    rewrite <- keys_json_cart in Hkeys'.
    assert (total_quantity (json_cart (add_item cartItems itemId itemName itemPrice))
            = (total_quantity cartItems + if inherited itemId then 0 else 1)%N)
      as Hstep.
    { rewrite total_quantity_json_cart. apply total_quantity_add_item; [done|].
      simpl in Hsum. destruct (inherited itemId); simpl in Hsum; lia. }
    destruct (IH w' _ Hholds' Hkeys') as (c' & Hc' & Hk' & Htotal & Hl & Ha).
    { rewrite Hstep. simpl in Hsum.
      destruct (inherited itemId); simpl in Hsum; lia. }
    exists c'. simpl. rewrite Hrun. simpl.
    split; [done|]. split; [done|]. split; [|split].
    + rewrite Htotal, Hstep.
      destruct (inherited itemId); simpl; lia.
    + congruence.
    + rewrite Ha, Halerts, <- app_assoc. done.
Qed.

(** The order confirmation counts the clicks (lines 155-177 and 234-251).
    On a cart none of whose ids is a name of [Object.prototype], any clicks
    on add-to-cart buttons, of whatever ids in whatever order, add to the
    sum of the quantities the number of the clicks whose id is no such name,
    as long as this sum is at most [2^53], where the doubles still count;
    each click shows its message.  If the sum is not zero, the order button
    then reports it, with all its digits, and leaves the empty cart. *)
Theorem order_counts_the_add_clicks
    (args : list (string * string * float)) w cartItems :
  holds_cart cs w cartItems →
  Forall (λ k, inherited k = false) (keys cartItems) →
  let w1 := clicks cs (add_clicks args) w in
  let n := (total_quantity cartItems
            + N.of_nat (length (List.filter (λ a, negb (inherited a.1.1)) args)))%N in
  (0 < n ≤ 2 ^ 53)%N →
  alerts w1 = (alerts w ++ repeat "Item added to cart!" (length args))%list
  ∧ ∃ w2, processOrder_click cs w1 = (Normal tt, w2)
          ∧ alerts w2 =
              (alerts w1 ++ [("Order processed successfully! "
                                ++ pretty n ++ " item(s) ordered.")%string])%list
          ∧ holds_cart cs w2 []
          ∧ local_items cs w2 = local_items cs w.
Proof.
  intros Hholds Hkeys w1 n [Hn Hle].
  destruct (add_clicks_counted args w cartItems Hholds Hkeys Hle)
    as (c' & Hc' & _ & Htotal & Hlocal & Halerts).
  fold w1 in Hc', Hlocal, Halerts. fold n in Htotal.
  split; [done|].
  assert (c' ≠ []) as Hne.
  { intros ->. simpl in Htotal. lia. }
  destruct (processOrder_click_entries cs w1 c' Hc' Hne)
    as (w2 & Hrun & Ha & _ & Hl & Hempty).
  exists w2. split_and!; try done; [|congruence].
  rewrite Ha, items_ordered_safe by lia. simpl.
  by rewrite String_of_count_safe, Htotal by lia.
Qed.

(** A click on an add-to-cart button whose id is not in the cart and is no
    name of [Object.prototype] (lines 164-172): the cart gains one entry
    with the name of the button, its price as JSON keeps it and the
    quantity 1; the other entries are as they were.  The place of the entry
    is that of [Object.keys]: last, unless the id is an array index; an
    array index goes after the smaller indices and before all other ids,
    also those that were added before it. *)
Theorem addToCart_new_id_is_placed_by_its_kind
    w cartItems itemId itemName itemPrice :
  holds_cart cs w cartItems →
  own cartItems itemId = None → inherited itemId = false →
  let item := {| name := itemName; price := json_number itemPrice;
                 quantity := 1 |} in
  ∃ w' cartItems',
    addToCart_click cs itemId itemName itemPrice w = (Normal tt, w')
    ∧ holds_cart cs w' cartItems'
    ∧ own cartItems' itemId = Some item
    ∧ (∀ k, k ≠ itemId → own cartItems' k = own cartItems k)
    ∧ match array_index itemId with
      | None => cartItems' = (cartItems ++ [(itemId, item)])%list
      | Some i =>
          ∃ l r, cartItems = (l ++ r)%list
                 ∧ cartItems' = (l ++ (itemId, item) :: r)%list
                 ∧ Forall (λ p, ∃ j, array_index p.1 = Some j ∧ (j < i)%N) l
                 ∧ Forall (λ p, ∀ j, array_index p.1 = Some j → (i < j)%N) r
      end.
Proof.
  intros Hholds Hown Hin item.
  destruct (addToCart_click_returns cs w _ itemId itemName itemPrice Hholds)
    as (w' & Hrun & Hholds' & _).
  destruct Hholds as (_ & Hobj & Hjson).
  assert (json_cart (add_item cartItems itemId itemName itemPrice)
          = add_property itemId item cartItems) as Hadd.
  { unfold add_item, get. rewrite Hown, Hin.
    by rewrite json_cart_add_property, Hjson. }
  rewrite Hadd in Hholds'.
  exists w', (add_property itemId item cartItems).
  split; [done|]. split; [done|]. split; [|split].
  - rewrite own_add_property by done. by rewrite String.eqb_refl.
  - intros k Hk. rewrite own_add_property by done.
    apply String.eqb_neq in Hk. by rewrite Hk.
  - unfold add_property. destruct (array_index itemId) as [i|] eqn:Hi; [|done].
    by apply add_index_place.
Qed.

End CartClicks.

(** ** Trimming *)

Section Trimming.

Lemma trimEnd_idem s : trimEnd (trimEnd s) = trimEnd s.
Proof.
  induction s as [|c s IH]; simpl; [done|].
  destruct (trimEnd s) as [|d t] eqn:Ht.
  - destruct (is_space c) eqn:Hc; simpl; [done|]. by rewrite Hc.
  - change (trimEnd (String c (String d t)))
      with (match trimEnd (String d t) with
            | EmptyString => if is_space c then EmptyString else String c EmptyString
            | t' => String c t'
            end).
    by rewrite IH.
Qed.

Lemma trimStart_cases s :
  trimStart s = "" ∨ ∃ c s', trimStart s = String c s' ∧ is_space c = false.
Proof.
  induction s as [|c s IH]; simpl; [by left|].
  destruct (is_space c) eqn:Hc; [done|]. right. eauto.
Qed.

Lemma trimEnd_head c s : is_space c = false → ∃ t, trimEnd (String c s) = String c t.
Proof. intros Hc. simpl. destruct (trimEnd s); rewrite ?Hc; eauto. Qed.

Lemma trim_idem s : trim (trim s) = trim s.
Proof.
  unfold trim. destruct (trimStart_cases s) as [-> | (c & s' & -> & Hc)]; [done|].
  destruct (trimEnd_head c s' Hc) as [t Ht]. rewrite Ht at 1.
  simpl trimStart. rewrite Hc, <- Ht. apply trimEnd_idem.
Qed.

End Trimming.

(** ** The newsletter form *)

Section Newsletter.
Context `{R : Runtime} {H : Type} `{!StorageArea H}.
Implicit Types (w : World H).

(** The submit handler of the newsletter form (lines 122-146) shows exactly
    one message and touches neither scope of the storage.  If the trimmed
    value has one [@] between two non-empty texts, the message confirms the
    subscription with the trimmed value and the input is cleared; if not,
    the input keeps its value, untrimmed, and the message is one of the
    three error messages. *)
Theorem newsletter_submit_outcome value w :
  ∃ w' message value',
    newsletter_submit value w = (Normal value', w')
    ∧ alerts w' = (alerts w ++ [message])%list
    ∧ sessionStorage w' = sessionStorage w ∧ localStorage w' = localStorage w
    ∧ _session w' = _session w ∧ _local w' = _local w
    ∧ (one_at_between_texts (trim value) →
       value' = ""
       ∧ message = "You are now subscribed to our newsletter with email: "
                     ++ trim value)
    ∧ (¬ one_at_between_texts (trim value) →
       value' = value
       ∧ message ∈ [ "Please enter an email address.";
                     "Please include a " ++ dq ++ "@" ++ dq
                       ++ " in the email address.";
                     "Please enter a valid email address." ]).
Proof.
  unfold newsletter_submit, bind.
  destruct (newsletter_check (trim value)) as [alert|] eqn:Hcheck.
  - eexists _, alert, value. split; [reflexivity|]. split_and!; try done.
    + intros Hone%newsletter_check_accepts. congruence.
    + intros _. split; [done|]. unfold newsletter_check in Hcheck.
      repeat case_match; simplify_eq; set_solver.
  - eexists _, _, "". split; [reflexivity|]. split_and!; try done.
    intros Hnot. by apply newsletter_check_accepts in Hcheck.
Qed.

End Newsletter.

(** ** The feedback form on the next visit *)

Section NextVisit.
Context `{R : Runtime} {H : Type} `{!StorageArea H} `{!Reliable H}.
Variable cs : CartStorage.
Implicit Types (w : World H) (form : FeedbackForm).

Lemma accepted_with_message form0 form message :
  accepted form → trim message ≠ "" →
  accepted
    (with_message
       {| feedback_name := trim (feedback_name form);
          feedback_email := trim (feedback_email form);
          feedback_phone := trim (feedback_phone form);
          feedback_message := feedback_message form0 |} message).
Proof.
  unfold accepted, feedback_check. simpl. rewrite !trim_idem.
  intros Hacc Hmsg.
  destruct (is_empty (trim (feedback_name form))); [done|].
  destruct (feedback_email_check (trim (feedback_email form))); [done|].
  apply is_empty_false in Hmsg. by rewrite Hmsg.
Qed.

Lemma rejected_blank_message form0 form message :
  accepted form → trim message = "" →
  feedback_check (trim (trim (feedback_name form)))
    (trim (trim (feedback_email form))) (trim message)
  = Some "Please enter your issue/order information.".
Proof.
  unfold accepted, feedback_check. rewrite !trim_idem.
  intros Hacc ->.
  destruct (is_empty (trim (feedback_name form))); [done|].
  by destruct (feedback_email_check (trim (feedback_email form))).
Qed.

(** What [loadCustomerData] (lines 259-272) puts into the form passes the
    checks of the submit handler (lines 284-303) again.  After an accepted
    submission, the form of the next visit has the trimmed name, email and
    phone and no message; with a message that is not blank it is accepted
    and the same contact details are stored with the new message; with a
    blank one the only complaint is about the message, and what is stored
    stays. *)
Theorem stored_contact_details_pass_the_checks form now message now' w :
  ready cs localStorage_t w → accepted form →
  ∃ w1 form1,
    feedback_submit cs form now w = (Normal (message_cleared form), w1)
    ∧ loadCustomerData cs blank_form w1 = (Normal form1, w1)
    ∧ form1 = {| feedback_name := trim (feedback_name form);
                 feedback_email := trim (feedback_email form);
                 feedback_phone := trim (feedback_phone form);
                 feedback_message := "" |}
    ∧ (trim message ≠ "" →
       ∃ w2,
         feedback_submit cs (with_message form1 message) now' w1
         = (Normal form1, w2)
         ∧ local_items cs w2 !! "customerData" =
             Some (JSON_stringify_customer
                     {| cd_name := trim (feedback_name form);
                        cd_email := trim (feedback_email form);
                        cd_phone := trim (feedback_phone form);
                        cd_lastMessage := trim message;
                        cd_timestamp := now' |}))
    ∧ (trim message = "" →
       feedback_submit cs (with_message form1 message) now' w1
       = (Normal (with_message form1 message),
          (showCustomAlert "Please enter your issue/order information." w1).2)).
Proof.
  intros Hr Hacc.
  destruct (feedback_submit_saves cs form now w Hr Hacc)
    as (w1 & Hrun & Hlocal & _ & _ & Hr1).
  assert (local_items cs w1 !! "customerData"
          = Some (JSON_stringify_customer (customer_of form now))) as Hstored.
  { by rewrite Hlocal, lookup_insert_eq. }
  pose proof (loadCustomerData_returns cs blank_form _ w1 Hr1 Hstored) as Hload.
  simpl in Hload.
  eexists w1, _. split; [done|]. split; [exact Hload|]. split; [done|]. split.
  - intros Hmsg.
    pose proof (accepted_with_message blank_form form message Hacc Hmsg) as Hacc2.
    simpl in Hacc2.
    destruct (feedback_submit_saves cs _ now' w1 Hr1 Hacc2)
      as (w2 & Hrun2 & Hlocal2 & _).
    exists w2. split; [exact Hrun2|].
    rewrite Hlocal2, lookup_insert_eq. unfold customer_of. simpl.
    by rewrite !trim_idem.
  - intros Hmsg. unfold feedback_submit, bind. simpl.
    by rewrite (rejected_blank_message blank_form form message Hacc Hmsg).
Qed.

End NextVisit.

(** ** The alert box *)

Section AlertBox.

Lemma prefix_app needle s : String.prefix needle (needle ++ s) = true.
Proof.
  induction needle as [|c needle IH]; simpl; [by destruct s|].
  by destruct (ascii_dec c c).
Qed.

Lemma includes_prefix needle s : includes needle (needle ++ s) = true.
Proof.
  assert (∀ s', String.prefix needle s' = true → includes needle s' = true)
    as Hpre by (by intros [|c s']; simpl; intros ->).
  apply Hpre, prefix_app.
Qed.

Lemma includes_app_r needle s1 s2 :
  includes needle s2 = true → includes needle (s1 ++ s2) = true.
Proof.
  intros Hs2. induction s1 as [|c s1 IH]; simpl; [done|].
  rewrite IH. apply orb_true_r.
Qed.

Lemma includes_occurs c needle s :
  occurs c s = false → includes (String c needle) s = false.
Proof.
  induction s as [|d s IH]; simpl; [done|].
  intros (Hcd & Hs)%orb_false_iff. rewrite IH by done.
  destruct (ascii_dec c d) as [->|]; [|done].
  by rewrite Ascii.eqb_refl in Hcd.
Qed.

Lemma occurs_app c s1 s2 : occurs c (s1 ++ s2) = occurs c s1 || occurs c s2.
Proof.
  induction s1 as [|d s1 IH]; simpl; [done|]. by rewrite IH, orb_assoc.
Qed.

Lemma occurs_pretty_N_go c x s :
  (∀ d, Ascii.eqb c (pretty_N_char d) = false) →
  occurs c s = false → occurs c (pretty_N_go x s) = false.
Proof.
  intros Hc. revert s. induction (N.lt_wf_0 x) as [x _ IH]; intros s Hs.
  assert (x = 0 ∨ 0 < x)%N as [->|Hx] by lia.
  - by rewrite pretty_N_go_0.
  - rewrite pretty_N_go_step by done. apply IH.
    + by apply N.div_lt.
    + simpl. by rewrite Hc, Hs.
Qed.

Lemma occurs_pretty_N c (n : N) :
  (∀ d, Ascii.eqb c (pretty_N_char d) = false) →
  occurs c (pretty n) = false.
Proof.
  intros Hc. unfold pretty, pretty_N.
  case_decide.
  - simpl. specialize (Hc 0%N). simpl in Hc. by rewrite Hc.
  - by apply occurs_pretty_N_go.
Qed.

Lemma occurs_zeros c q : Ascii.eqb c "0" = false → occurs c (zeros q) = false.
Proof. intros Hc. induction q as [|q IH]; simpl; [done|]. by rewrite Hc, IH. Qed.

(* a character that no Number is written with *)
Lemma occurs_number c :
  occurs c "0123456789.e+Infinity" = false →
  (∀ d, Ascii.eqb c (pretty_N_char d) = false)
  ∧ Ascii.eqb c "." = false ∧ Ascii.eqb c "e" = false
  ∧ Ascii.eqb c "+" = false ∧ occurs c "Infinity" = false.
Proof.
  simpl. intros Hc.
  repeat (apply orb_false_iff in Hc as [? Hc]).
  split_and!; try done.
  - intros d. unfold pretty_N_char. by repeat case_match.
  - repeat (apply orb_false_iff; split); done.
Qed.

Lemma occurs_exponential c s q :
  occurs c "0123456789.e+Infinity" = false →
  occurs c (exponential s q) = false.
Proof.
  intros (Hd & Hpoint & He & Hplus & _)%occurs_number.
  unfold exponential.
  pose proof (occurs_pretty_N c (Z.to_N s) Hd) as Hds.
  destruct (pretty (Z.to_N s)) as [|d [|d' rest]]; [done| |].
  - simpl in Hds. apply orb_false_iff in Hds as [Hcd _].
    rewrite !occurs_app. simpl. rewrite Hcd, He, Hplus. simpl.
    by apply (occurs_pretty_N c (N.of_nat _)).
  - simpl in Hds. apply orb_false_iff in Hds as [Hcd Hrest].
    rewrite !occurs_app. simpl. rewrite Hcd, Hpoint, He, Hplus. simpl.
    apply orb_false_iff in Hrest as [-> ->]. simpl.
    by apply (occurs_pretty_N c (N.of_nat _)).
Qed.

Lemma occurs_String_of_total c (x : count) :
  occurs c "0123456789.e+Infinity" = false →
  occurs c (String_of_total x) = false.
Proof.
  intros Hc. pose proof (occurs_number c Hc) as (Hd & _ & _ & _ & Hinf).
  destruct x as [n|]; [|done]. simpl. unfold String_of_count.
  destruct (n <? 2 ^ 53)%N; [by apply occurs_pretty_N|].
  destruct (shortest _ _ _) as [s q].
  destruct (n <? 10 ^ 21)%N; [|by apply occurs_exponential].
  rewrite occurs_app, occurs_pretty_N by done. simpl.
  apply occurs_zeros. specialize (Hd 0%N). done.
Qed.

Lemma replace_line_feeds_app s1 s2 :
  replace_line_feeds (s1 ++ s2) = replace_line_feeds s1 ++ replace_line_feeds s2.
Proof.
  induction s1 as [|c s1 IH]; simpl; [done|].
  rewrite IH. by destruct (Ascii.eqb c "010").
Qed.

Lemma replace_line_feeds_join parts :
  replace_line_feeds (join nl parts) = join "<br>" (map replace_line_feeds parts).
Proof.
  induction parts as [|part parts IH]; [done|].
  destruct parts as [|part' parts]; [done|].
  change (join nl (part :: part' :: parts))
    with (part ++ nl ++ join nl (part' :: parts)).
  rewrite !replace_line_feeds_app, IH. done.
Qed.

(* the order confirmation has no line feed and no [Cart Contents] *)
Lemma alert_box_order (x : count) :
  let message :=
    "Order processed successfully! " ++ String_of_total x ++ " item(s) ordered." in
  alert_box message = {| content := TextContent message; timeout := 3000 |}.
Proof.
  intros message. unfold alert_box.
  assert (∀ c, occurs c "0123456789.e+Infinity" = false →
               occurs c "Order processed successfully! " = false →
               occurs c " item(s) ordered." = false →
               occurs c message = false) as Hocc.
  { intros c Hc H1 H2. unfold message.
    by rewrite !occurs_app, H1, H2, occurs_String_of_total. }
  unfold nl.
  rewrite (includes_occurs "010" "" message), (includes_occurs "C" _ message);
    [done | |]; by apply Hocc.
Qed.

Lemma alert_box_cart_message (cartItems : Cart) :
  alert_box (cart_message cartItems) =
  {| content :=
       InnerHTML ("Cart Contents:<br><br>"
                    ++ join "<br>"
                         (map (λ p, replace_line_feeds (item_line p.2)) cartItems)
                    ++ "<br><br>Total: $"
                    ++ replace_line_feeds (toFixed2 (grand_total cartItems)));
     timeout := 5000 |}.
Proof.
  unfold alert_box, cart_message.
  set (lines := join nl (map (λ p, item_line p.2) cartItems)).
  set (rest := lines ++ nl ++ nl ++ "Total: $" ++ toFixed2 (grand_total cartItems)).
  assert (includes "Cart Contents" ("Cart Contents:" ++ nl ++ nl ++ rest) = true)
    as ->.
  { change ("Cart Contents:" ++ nl ++ nl ++ rest)
      with ("Cart Contents" ++ (":" ++ nl ++ nl ++ rest)).
    apply includes_prefix. }
  assert (includes nl ("Cart Contents:" ++ nl ++ nl ++ rest) = true) as ->.
  { apply includes_app_r, includes_prefix. }
  f_equal. f_equal. unfold rest, lines.
  rewrite !replace_line_feeds_app, replace_line_feeds_join, map_map.
  done.
Qed.

End AlertBox.

Section CartBoxes.
Context `{R : Runtime} {H : Type} `{!StorageArea H} `{!Reliable H}.
Variable cs : CartStorage.
Implicit Types (w : World H) (cartItems : Cart).

(** What the buttons of the cart put on the screen (lines 59-98 with the
    handlers of lines 155-251).  Every click shows one box.  The contents of
    a cart that is not empty are given to [innerHTML], each line feed as
    [<br>] and the names of the items as they are, and stay for 5000 ms;
    every other message of the four buttons is given to [textContent], as it
    is, and stays for 3000 ms. *)
Theorem cart_buttons_show_one_box (b : button) w cartItems :
  holds_cart cs w cartItems →
  ∃ w' message,
    click cs b w = (Normal tt, w')
    ∧ alerts w' = (alerts w ++ [message])%list
    ∧ alert_box message =
        match b, cartItems with
        | ViewCart, _ :: _ =>
            {| content :=
                 InnerHTML
                   ("Cart Contents:<br><br>"
                      ++ join "<br>"
                           (map (λ p, replace_line_feeds (item_line p.2)) cartItems)
                      ++ "<br><br>Total: $"
                      ++ replace_line_feeds (toFixed2 (grand_total cartItems)));
               timeout := 5000 |}
        | _, _ => {| content := TextContent message; timeout := 3000 |}
        end.
Proof.
  intros Hholds. destruct b as [itemId itemName itemPrice| | |]; simpl.
  - destruct (addToCart_click_returns cs w _ itemId itemName itemPrice Hholds)
      as (w' & Hrun & _ & _ & _ & Ha).
    exists w', "Item added to cart!". by destruct cartItems.
  - rewrite (viewCart_click_message cs w cartItems Hholds).
    destruct cartItems as [|p cartItems].
    + eexists _, _. split; [reflexivity|]. done.
    + eexists _, _. split; [reflexivity|]. split; [done|].
      apply alert_box_cart_message.
  - destruct cartItems as [|p cartItems].
    + rewrite (clearCart_click_empty cs w Hholds).
      eexists _, _. split; [reflexivity|]. done.
    + destruct (clearCart_click_entries cs w _ Hholds) as (w' & Hrun & Ha & _);
        [done|].
      exists w', "Cart has been cleared!". done.
  - destruct cartItems as [|p cartItems].
    + rewrite (processOrder_click_empty cs w Hholds).
      eexists _, _. split; [reflexivity|]. done.
    + destruct (processOrder_click_entries cs w _ Hholds) as (w' & Hrun & Ha & _);
        [done|].
      eexists w', _. split; [done|]. split; [exact Ha|].
      apply alert_box_order.
Qed.

End CartBoxes.

(** ** The cart and the contact details *)

Section Separate.
Context `{R : Runtime} {H : Type} `{!StorageArea H} `{!Reliable H}.
Variable cs : CartStorage.
Implicit Types (w : World H) (cartItems : Cart) (form : FeedbackForm).

Lemma click_local_items (b : button) w cartItems :
  holds_cart cs w cartItems →
  ∃ w' cartItems',
    click cs b w = (Normal tt, w')
    ∧ holds_cart cs w' cartItems'
    ∧ local_items cs w' = local_items cs w.
Proof.
  intros Hholds. destruct b as [itemId itemName itemPrice| | |]; simpl.
  - destruct (addToCart_click_returns cs w cartItems itemId itemName itemPrice
                Hholds) as (w' & Hrun & Hholds' & _ & Hl & _).
    eauto.
  - rewrite (viewCart_click_message cs w cartItems Hholds).
    edestruct (showCustomAlert_holds cs) as (w' & -> & Hholds' & _ & Hl & _);
      [done|].
    eauto.
  - destruct cartItems as [|p cartItems'].
    + rewrite (clearCart_click_empty cs w Hholds).
      edestruct (showCustomAlert_holds cs) as (w' & -> & Hholds' & _ & Hl & _);
        [done|].
      eauto.
    + destruct (clearCart_click_entries cs w _ Hholds ltac:(done))
        as (w' & -> & _ & _ & Hl & Hholds').
      exists w', []. auto.
  - destruct cartItems as [|p cartItems'].
    + rewrite (processOrder_click_empty cs w Hholds).
      edestruct (showCustomAlert_holds cs) as (w' & -> & Hholds' & _ & Hl & _);
        [done|].
      eauto.
    + destruct (processOrder_click_entries cs w _ Hholds ltac:(done))
        as (w' & -> & _ & _ & Hl & Hholds').
      exists w', []. auto.
Qed.

Lemma clicks_local_items (bs : list button) :
  ∀ w cartItems,
    holds_cart cs w cartItems →
    local_items cs (clicks cs bs w) = local_items cs w.
Proof.
  induction bs as [|b bs IH]; intros w cartItems Hholds; simpl; [done|].
  destruct (click_local_items b w cartItems Hholds) as (w' & c' & -> & Hh' & Hl).
  simpl. by rewrite (IH w' c' Hh').
Qed.

Lemma setLocalItem_session k v w :
  fits cs w →
  ∃ w', setLocalItem cs k v w = (Normal tt, w')
        ∧ session_items cs w' = session_items cs w
        ∧ fits cs w' ∧ alerts w' = alerts w.
Proof.
  intros Hfits.
  destruct (call_map_call cs (SetLocalItem k v) w Hfits)
    as (w' & Hcall & Hsc & Hfits' & Ha).
  simpl in Hcall. unfold undefined, bind in Hcall.
  destruct (setLocalItem cs k v w) as [[[]|e] w''] eqn:Hset; [|done].
  injection Hcall as ->. apply (f_equal session) in Hsc.
  exists w'. done.
Qed.

Lemma feedback_submit_session form now w cartItems :
  fits cs w → holds_cart cs w cartItems →
  ∃ form' w',
    feedback_submit cs form now w = (Normal form', w')
    ∧ session_items cs w' = session_items cs w
    ∧ holds_cart cs w' cartItems.
Proof.
  intros Hfits Hholds. unfold feedback_submit, bind.
  destruct (feedback_check _ _ _) as [alert|].
  - destruct (showCustomAlert_holds cs alert w cartItems Hholds)
      as (w' & -> & Hholds' & Hs & _).
    eauto.
  - unfold saveCustomerToLocal.
    destruct (setLocalItem_session "customerData"
                (JSON_stringify_customer (customer_of form now)) w Hfits)
      as (w1 & -> & Hs1 & Hfits1 & _).
    assert (holds_cart cs w1 cartItems) as Hholds1.
    { apply holds_cart_stored. apply holds_cart_stored in Hholds.
      destruct Hholds as (_ & Hst & Hobj & Hjson).
      split; [apply Hfits1|]. by rewrite Hs1. }
    destruct (showCustomAlert_holds cs
                ("Thank you for your message, " ++ trim (feedback_name form)
                   ++ "! We will get back to you soon.") w1 cartItems Hholds1)
      as (w2 & -> & Hholds2 & Hs2 & _).
    eexists _, w2. split; [done|]. split; [congruence | done].
Qed.

(** The cart and the contact details do not meet.  The buttons of the cart
    (lines 155-251) read and write the session scope only: after any clicks
    the durable scope is as it was.  The submit handler of the feedback form
    (lines 276-328) writes the durable scope only: whether the form is
    accepted or not, it completes and the page holds the cart it held. *)
Theorem cart_and_contact_details_are_separate
    (bs : list button) form now w cartItems :
  fits cs w → holds_cart cs w cartItems →
  local_items cs (clicks cs bs w) = local_items cs w
  ∧ ∃ form' w',
      feedback_submit cs form now w = (Normal form', w')
      ∧ session_items cs w' = session_items cs w
      ∧ holds_cart cs w' cartItems.
Proof.
  intros Hfits Hholds. split.
  - by apply (clicks_local_items bs w cartItems).
  - by apply feedback_submit_session.
Qed.

End Separate.

(** ** More of the script at work *)

Section MoreExamples.
#[local] Existing Instance symbolic.
#[local] Existing Instance plain_area.
#[local] Existing Instance plain_reliable.

Lemma plain_page_fits : fits both_real plain_page.
Proof. intros [] _; eexists; reflexivity. Qed.

Lemma blocked_page_fits : fits fallback_only blocked_page.
Proof. intros [] Hav; discriminate Hav. Qed.

Lemma fallback_text_page_ready t :
  ready fallback_only sessionStorage_t (fallback_text_page t).
Proof. intros Hav. discriminate Hav. Qed.

(** Calls on both scopes of a page with both storage objects. *)
Lemma adapter_is_two_maps_witness :
  fits both_real plain_page
  ∧ (calls both_real
       [SetSessionItem "theme" (Str "dark"); SetLocalItem "theme" (Str "light");
        GetSessionItem "theme"; ClearSession; GetSessionItem "theme";
        GetLocalItem "theme"] plain_page).1
    = map Normal
        (map_calls both_real
           [SetSessionItem "theme" (Str "dark");
            SetLocalItem "theme" (Str "light");
            GetSessionItem "theme"; ClearSession; GetSessionItem "theme";
            GetLocalItem "theme"] (scopes_of both_real plain_page)).1.
Proof.
  split; [exact plain_page_fits|].
  exact (proj1 (adapter_is_two_maps both_real _ plain_page plain_page_fits)).
Defined.

(** The cart entry on the fallback. *)
Lemma adapter_write_read_remove_witness :
  fits fallback_only blocked_page
  ∧ (useSession fallback_only = true ∨ "cartItems" ≠ "__proto__")
  ∧ (calls fallback_only
       [SetSessionItem "cartItems" (Str "{}"); GetSessionItem "cartItems";
        RemoveSessionItem "cartItems"; GetSessionItem "cartItems"]
       blocked_page).1
    = [Normal Undefined; Normal (Value (Some (Str "{}"))); Normal Undefined;
       Normal (Value None)].
Proof.
  assert (useSession fallback_only = true ∨ "cartItems" ≠ "__proto__") as Hk
    by (right; discriminate).
  split; [exact blocked_page_fits|]. split; [exact Hk|].
  exact (proj1 (adapter_write_read_remove fallback_only "cartItems" (Str "{}")
                  blocked_page blocked_page_fits Hk)).
Defined.

(** The key [__proto__] on the fallback: written, and not there. *)
Lemma fallback_drops_the_key_proto_witness :
  fits fallback_only blocked_page
  ∧ (calls fallback_only
       [SetSessionItem "__proto__" (Str "x"); GetSessionItem "__proto__"]
       blocked_page).1
    = [Normal Undefined; Normal (Value None)].
Proof.
  split; [exact blocked_page_fits|].
  exact (proj1 (fallback_drops_the_key_proto fallback_only [] (Str "x")
                  blocked_page blocked_page_fits)).
Defined.

(** [clearSession] on a session storage that holds a cart. *)
Lemma clearSession_empties_the_session_scope_witness :
  fits both_real (storage_cart_page example_cart)
  ∧ ∃ w', clearSession both_real (storage_cart_page example_cart)
            = (Normal tt, w')
          ∧ session_items both_real w' = ∅
          ∧ holds_cart both_real w' [].
Proof.
  assert (fits both_real (storage_cart_page example_cart)) as Hfits
    by (intros [] _; eexists; reflexivity).
  split; [exact Hfits|].
  destruct (clearSession_empties_the_session_scope both_real _ Hfits)
    as (w' & Hrun & Hs & _ & Hholds & _).
  exists w'. split; [exact Hrun|]. split; [exact Hs | exact Hholds].
Defined.

(** A text under [cartItems] that is no JSON: the view button throws. *)
Lemma unreadable_cart_stops_every_button_witness :
  ready fallback_only sessionStorage_t (fallback_text_page (Str "{oops"))
  ∧ session_items fallback_only (fallback_text_page (Str "{oops")) !! "cartItems"
    = Some (Str "{oops")
  ∧ truthy (Str "{oops") = true
  ∧ JSON_parse_cart (Str "{oops") = Throw SyntaxError
  ∧ click fallback_only ViewCart (fallback_text_page (Str "{oops"))
    = (Throw SyntaxError, fallback_text_page (Str "{oops")).
Proof.
  split; [apply fallback_text_page_ready|]. split; [reflexivity|].
  split; [reflexivity|]. split; [reflexivity|].
  exact (unreadable_cart_stops_every_button fallback_only ViewCart
           (fallback_text_page (Str "{oops")) (Str "{oops") SyntaxError
           (fallback_text_page_ready _) eq_refl eq_refl eq_refl).
Defined.

(** The empty string under [cartItems]: the empty cart. *)
Lemma blank_entry_reads_as_the_empty_cart_witness :
  ready fallback_only sessionStorage_t (fallback_text_page (Str ""))
  ∧ (∃ t, session_items fallback_only (fallback_text_page (Str "")) !! "cartItems"
          = Some t ∧ truthy t = false)
  ∧ getCartFromSession fallback_only (fallback_text_page (Str ""))
    = (Normal [], fallback_text_page (Str "")).
Proof.
  assert (∃ t, session_items fallback_only (fallback_text_page (Str ""))
                 !! "cartItems" = Some t ∧ truthy t = false) as Hblank
    by (exists (Str ""); split; reflexivity).
  split; [apply fallback_text_page_ready|]. split; [exact Hblank|].
  exact (proj1 (blank_entry_reads_as_the_empty_cart fallback_only _
                  (fallback_text_page_ready _) (or_intror Hblank))).
Defined.

(** Four clicks, one of them on a button with the id [toString]: three
    items are ordered. *)
Lemma order_counts_the_add_clicks_witness :
  holds_cart both_real plain_page []
  ∧ Forall (λ k, inherited k = false) (keys [])
  ∧ (0 < 3 ≤ 2 ^ 53)%N
  ∧ ∃ w2,
      processOrder_click both_real
        (clicks both_real
           (add_clicks [("A", "A", 10%float); ("toString", "T", 1%float);
                        ("B", "B", 5%float); ("A", "A", 10%float)]) plain_page)
      = (Normal tt, w2)
      ∧ alerts w2
        = [ "Item added to cart!"; "Item added to cart!"; "Item added to cart!";
            "Item added to cart!";
            "Order processed successfully! 3 item(s) ordered." ]
      ∧ holds_cart both_real w2 [].
Proof.
  assert (Forall (λ k, inherited k = false) (keys [])) as Hkeys by constructor.
  assert (0 < 3 ≤ 2 ^ 53)%N as Hn by (split; by vm_compute).
  split; [exact empty_cart_held_in_storage|]. split; [exact Hkeys|].
  split; [exact Hn|].
  destruct (order_counts_the_add_clicks both_real
              [("A", "A", 10%float); ("toString", "T", 1%float);
               ("B", "B", 5%float); ("A", "A", 10%float)]
              plain_page [] empty_cart_held_in_storage Hkeys Hn)
    as (Ha1 & w2 & Hrun & Ha2 & Hholds & _).
  exists w2. split; [exact Hrun|]. split; [|exact Hholds].
  rewrite Ha2, Ha1. reflexivity.
Defined.

Lemma mixed_cart_held :
  holds_cart fallback_only (fallback_cart_page mixed_cart) mixed_cart.
Proof. split_and!; vm_compute; reflexivity. Qed.

(** The id [3] is added to a cart with the ids [7] and [b]. *)
Lemma addToCart_new_id_is_placed_by_its_kind_witness :
  holds_cart fallback_only (fallback_cart_page mixed_cart) mixed_cart
  ∧ own mixed_cart "3" = None ∧ inherited "3" = false
  ∧ ∃ w' cartItems',
      addToCart_click fallback_only "3" "Three" 3%float
        (fallback_cart_page mixed_cart) = (Normal tt, w')
      ∧ holds_cart fallback_only w' cartItems'
      ∧ keys cartItems' = ["3"; "7"; "b"].
Proof.
  split; [exact mixed_cart_held|]. split; [reflexivity|]. split; [reflexivity|].
  destruct (addToCart_new_id_is_placed_by_its_kind fallback_only
              (fallback_cart_page mixed_cart) mixed_cart "3" "Three" 3%float
              mixed_cart_held eq_refl eq_refl)
    as (w' & c' & Hrun & Hholds & _ & _ & Hplace).
  exists w', c'. split; [exact Hrun|]. split; [exact Hholds|].
  change (array_index "3") with (Some 3%N) in Hplace.
  destruct Hplace as (l & r & Hlr & -> & Hl & _).
  destruct l as [|p l].
  - simpl in Hlr. by subst r.
  - injection Hlr as <- _. apply Forall_cons in Hl as [(j & Hj & Hlt) _].
    vm_compute in Hj. injection Hj as <-. by vm_compute in Hlt.
Defined.

(** The first form of the examples, and the next visit. *)
Lemma stored_contact_details_pass_the_checks_witness :
  ready both_real localStorage_t plain_page
  ∧ accepted first_form
  ∧ ∃ w1,
      feedback_submit both_real first_form "t1" plain_page
      = (Normal (message_cleared first_form), w1)
      ∧ loadCustomerData both_real blank_form w1
        = (Normal {| feedback_name := "Ann"; feedback_email := "ann@example.com";
                     feedback_phone := "555-0100"; feedback_message := "" |}, w1).
Proof.
  assert (ready both_real localStorage_t plain_page) as Hr
    by (intros _; eexists; reflexivity).
  assert (accepted first_form) as Hacc by (vm_compute; reflexivity).
  split; [exact Hr|]. split; [exact Hacc|].
  destruct (stored_contact_details_pass_the_checks both_real first_form "t1"
              "again" "t2" plain_page Hr Hacc)
    as (w1 & form1 & Hrun & Hload & -> & _).
  exists w1. split; [exact Hrun | exact Hload].
Defined.

(** The view button on the cart of the specification's example. *)
Lemma cart_buttons_show_one_box_witness :
  holds_cart fallback_only (fallback_cart_page example_cart) example_cart
  ∧ ∃ w' message,
      click fallback_only ViewCart (fallback_cart_page example_cart)
      = (Normal tt, w')
      ∧ alerts w' = [message]
      ∧ alert_box message
        = {| content :=
               InnerHTML ("Cart Contents:<br><br>A (x2) - $20.00<br>"
                            ++ "B (x1) - $5.00<br><br>Total: $25.00");
             timeout := 5000 |}.
Proof.
  split; [exact example_cart_held|].
  destruct (cart_buttons_show_one_box fallback_only ViewCart _ _
              example_cart_held) as (w' & message & Hrun & Ha & Hbox).
  exists w', message. split; [exact Hrun|]. split; [exact Ha|].
  rewrite Hbox. vm_compute. reflexivity.
Defined.

(** The cart of the specification's example in the session storage: clicks
    on the buttons, and the malformed form. *)
Lemma cart_and_contact_details_are_separate_witness :
  fits both_real (storage_cart_page example_cart)
  ∧ holds_cart both_real (storage_cart_page example_cart) example_cart
  ∧ local_items both_real
      (clicks both_real [AddToCart "A" "A" 10%float; ViewCart; ProcessOrder]
         (storage_cart_page example_cart))
    = local_items both_real (storage_cart_page example_cart).
Proof.
  assert (fits both_real (storage_cart_page example_cart)) as Hfits
    by (intros [] _; eexists; reflexivity).
  split; [exact Hfits|]. split; [exact example_cart_held_in_storage|].
  exact (proj1 (cart_and_contact_details_are_separate both_real
                  [AddToCart "A" "A" 10%float; ViewCart; ProcessOrder]
                  malformed_form "t" _ _ Hfits example_cart_held_in_storage)).
Defined.

End MoreExamples.
